(** * Open 2D Studio: the file-icon generator (scripts/generate-file-icons.py)

    A shallow embedding of the icon generator and the properties of its
    geometry, label text, frame assembly and font fallback.

    Python values are modelled as the script uses them:
    - [int] is [Z] (unbounded);
    - [float] is an IEEE 754 binary64 number, [spec_float] with
      [prec = 53] and [emax = 1024], every operation rounded to nearest
      even by the Standard Library's executable specification;
    - an exception is [None] in the [option] monad;
    - the color-scheme [dict] is a [gmap string color];
    - the [ImageDraw] object is the image it draws on: the list of draw
      calls issued so far, threaded through the renderers;
    - the fonts and the text measurement of the imaging library are
      parameters of the renderers;
    - the save call is the record of its arguments, and the library's
      ICO writer is the list of frames it selects from them.

    The definitions come first, function by function as in the script;
    the properties follow: the frames at the configured sizes, the
    container, the color scheme, and the page geometry at every size,
    which rests on a few lemmas about binary64 rounding. *)

From Stdlib Require Import ZArith Lia Bool List String Ascii Sorted.
From Stdlib Require Import Floats.SpecFloat.
From stdpp Require Import base option list gmap strings.

Local Open Scope Z_scope.

(** ** Python numbers *)

Module PyNum.

Definition prec : Z := 53.
Definition emax : Z := 1024.

Inductive num : Type :=
| PInt (z : Z)
| PFloat (f : spec_float).

(** The least magnitude whose nearest binary64 value is out of range:
    the midpoint of the largest double and [2^1024]. *)
Definition overflow_threshold : Z := 2 ^ 1024 - 2 ^ 970.

(** [float(z)] as the interpreter converts an [int] operand: correctly
    rounded, [OverflowError] when the rounded value is not finite. *)
Definition float_of_int (z : Z) : option spec_float :=
  if Z.abs z <? overflow_threshold
  then Some (binary_normalize prec emax z 0 false)
  else None.

(** An integer as an (unnormalised) finite float, operand of the
    correctly rounded quotient below. *)
Definition raw_of_int (z : Z) : spec_float :=
  match z with
  | Z0 => S754_zero false
  | Zpos p => S754_finite false p 0
  | Zneg p => S754_finite true p 0
  end.

(** [a / b] on two [int]s: the correctly rounded quotient;
    [ZeroDivisionError] on [b = 0], [OverflowError] when the quotient
    rounds out of range. *)
Definition int_truediv (a b : Z) : option spec_float :=
  if b =? 0 then None
  else if Z.abs a <? overflow_threshold * Z.abs b
       then Some (SFdiv prec emax (raw_of_int a) (raw_of_int b))
       else None.

(** A float literal [n/d] written in decimal in the source is the
    double nearest to that rational. *)
Definition float_lit (n d : positive) : spec_float :=
  SFdiv prec emax (S754_finite false n 0) (S754_finite false d 0).

Definition to_float (x : num) : option spec_float :=
  match x with
  | PInt z => float_of_int z
  | PFloat f => Some f
  end.

Definition is_zero (f : spec_float) : bool :=
  match f with
  | S754_zero _ => true
  | _ => false
  end.

Definition py_add (x y : num) : option num :=
  match x, y with
  | PInt a, PInt b => Some (PInt (a + b))
  | _, _ => a ← to_float x; b ← to_float y; Some (PFloat (SFadd prec emax a b))
  end.

Definition py_sub (x y : num) : option num :=
  match x, y with
  | PInt a, PInt b => Some (PInt (a - b))
  | _, _ => a ← to_float x; b ← to_float y; Some (PFloat (SFsub prec emax a b))
  end.

Definition py_mul (x y : num) : option num :=
  match x, y with
  | PInt a, PInt b => Some (PInt (a * b))
  | _, _ => a ← to_float x; b ← to_float y; Some (PFloat (SFmul prec emax a b))
  end.

Definition py_truediv (x y : num) : option num :=
  match x, y with
  | PInt a, PInt b => PFloat <$> int_truediv a b
  | _, _ =>
      a ← to_float x; b ← to_float y;
      if is_zero b then None else Some (PFloat (SFdiv prec emax a b))
  end.

(** [int(x)]: truncation toward zero; [OverflowError] on an infinity,
    [ValueError] on a NaN. *)
Definition trunc_float (f : spec_float) : option Z :=
  match f with
  | S754_zero _ => Some 0
  | S754_finite s m e =>
      let q := match e with
               | Zneg k => Z.pos m / 2 ^ Z.pos k
               | _ => Z.pos m * 2 ^ e
               end in
      Some (if s then - q else q)
  | S754_infinity _ | S754_nan => None
  end.

Definition py_int (x : num) : option Z :=
  match x with
  | PInt z => Some z
  | PFloat f => trunc_float f
  end.

(** [x < y], exact also between an [int] and a [float]. *)
Definition int_float_compare (a : Z) (f : spec_float) : option comparison :=
  match f with
  | S754_nan => None
  | S754_infinity s => Some (if s then Gt else Lt)
  | S754_zero _ => Some (a ?= 0)
  | S754_finite s m e =>
      let v := if s then Z.neg m else Z.pos m in
      Some (match e with
            | Zneg k => (a * 2 ^ Z.pos k ?= v)
            | _ => (a ?= v * 2 ^ e)
            end)
  end.

Definition py_lt (x y : num) : bool :=
  match x, y with
  | PInt a, PInt b => a <? b
  | PFloat a, PFloat b => SFltb a b
  | PInt a, PFloat b =>
      match int_float_compare a b with Some Lt => true | _ => false end
  | PFloat a, PInt b =>
      match int_float_compare b a with Some Gt => true | _ => false end
  end.

(** The builtin [min(x, y)]: the first argument, unless the second is
    strictly smaller. *)
Definition py_min (x y : num) : num := if py_lt y x then y else x.

(** The exact value of a finite float as a multiple of [2^-k], when it
    is one. *)
Definition float_scaled (k : Z) (f : spec_float) : option Z :=
  match f with
  | S754_zero _ => Some 0
  | S754_finite s m e =>
      let v := if s then Z.neg m else Z.pos m in
      if 0 <=? e + k then Some (v * 2 ^ (e + k))
      else if v mod 2 ^ (- (e + k)) =? 0 then Some (v / 2 ^ (- (e + k)))
      else None
  | _ => None
  end.

End PyNum.

Import PyNum.

(** Expressions: operands that may already have raised. *)
Definition lift2 (op : num → num → option num) (x y : option num) : option num :=
  a ← x; b ← y; op a b.

Definition int_ (x : option num) : option Z := x ≫= py_int.
Definition Zi (z : Z) : option num := Some (PInt z).
Definition Fl (f : spec_float) : option num := Some (PFloat f).
Definition max_ (a : Z) (x : option Z) : option Z := Z.max a <$> x.
Definition min_ (x y : option num) : option num := a ← x; b ← y; Some (py_min a b).

Notation "x +' y" := (lift2 py_add x y) (at level 50, left associativity).
Notation "x -' y" := (lift2 py_sub x y) (at level 50, left associativity).
Notation "x *' y" := (lift2 py_mul x y) (at level 40, left associativity).
Notation "x /' y" := (lift2 py_truediv x y) (at level 40, left associativity).

(** The float literals of the script. *)
Definition f0_02 : spec_float := Eval vm_compute in float_lit 2 100.
Definition f0_04 : spec_float := Eval vm_compute in float_lit 4 100.
Definition f0_08 : spec_float := Eval vm_compute in float_lit 8 100.
Definition f0_1 : spec_float := Eval vm_compute in float_lit 1 10.
Definition f0_12 : spec_float := Eval vm_compute in float_lit 12 100.
Definition f0_18 : spec_float := Eval vm_compute in float_lit 18 100.
Definition f0_20 : spec_float := Eval vm_compute in float_lit 20 100.
Definition f0_22 : spec_float := Eval vm_compute in float_lit 22 100.
Definition f0_25 : spec_float := Eval vm_compute in float_lit 25 100.
Definition f0_35 : spec_float := Eval vm_compute in float_lit 35 100.
Definition f0_45 : spec_float := Eval vm_compute in float_lit 45 100.
Definition f0_55 : spec_float := Eval vm_compute in float_lit 55 100.
Definition f0_6 : spec_float := Eval vm_compute in float_lit 6 10.
Definition f0_65 : spec_float := Eval vm_compute in float_lit 65 100.
Definition f0_8 : spec_float := Eval vm_compute in float_lit 8 10.
Definition f0_85 : spec_float := Eval vm_compute in float_lit 85 100.

(** ** The imaging library: images and draw calls *)

Definition color : Type := Z * Z * Z.
Definition point : Type := num * num.
Definition box : Type := num * num * num * num.

Section Renderers.

(** The font machinery of the imaging library is outside the script:
    [truetype name size] is [None] when it raises [OSError]/[IOError]
    (the font file cannot be opened), [load_default] is the built-in
    font, and [textbbox xy text font] measures a text. *)
Context {font : Type}.
Variable truetype : string → Z → option font.
Variable load_default : font.
Variable textbbox : point → string → font → box.

Inductive draw_op : Type :=
| Polygon (xy : list point) (fill : color) (outline : option color)
| RoundedRectangle (xy : box) (radius : Z) (fill : color)
| Rectangle (xy : box) (fill : option color) (outline : option color) (width : option Z)
| Ellipse (xy : box) (fill : option color) (outline : option color) (width : option Z)
| Line (xy : list point) (fill : color) (width : Z)
| Text (xy : point) (text : string) (fill : color) (fnt : font).

(** [Image.new(mode, size, color)] followed by the draw calls made on
    its [ImageDraw.Draw]. *)
Record image : Type := Image {
  im_mode : string;
  im_size : Z * Z;
  im_background : Z * Z * Z * Z;
  im_ops : list draw_op
}.

Definition Image_new (mode : string) (size : Z * Z) (bg : Z * Z * Z * Z) : image :=
  Image mode size bg [].

Definition emit (draw : image) (op : draw_op) : image :=
  Image (im_mode draw) (im_size draw) (im_background draw) (im_ops draw ++ [op]).

(** ** Constants of the script *)

Definition ICO_SIZES : list Z := [16; 32; 48; 64; 256].

Definition o2d_colors : gmap string color :=
  <["accent" := (59, 130, 246)]>
    (<["accent_dark" := (37, 99, 235)]>
       (<["label_bg" := (59, 130, 246)]>
          (<["label_text" := (255, 255, 255)]> ∅))).

Definition dxf_colors : gmap string color :=
  <["accent" := (34, 197, 94)]>
    (<["accent_dark" := (22, 163, 74)]>
       (<["label_bg" := (34, 197, 94)]>
          (<["label_text" := (255, 255, 255)]> ∅))).

(** [COLORS.items()], in insertion order. *)
Definition COLORS : list (string * gmap string color) :=
  [("o2d"%string, o2d_colors); ("dxf"%string, dxf_colors)].

Definition LOGO_BG : color := (25, 28, 50).
Definition LOGO_SQUARE : color := (230, 57, 80).
Definition LOGO_CIRCLE : color := (0, 230, 118).
Definition LOGO_LINE : color := (255, 255, 255).
Definition LOGO_DOT : color := (230, 57, 100).

(** ** draw_document_page *)

Definition page_margin (s : Z) : option Z := max_ 1 (int_ (Zi s *' Fl f0_08)).
Definition page_fold (s : Z) (fold_ratio : num) : option Z :=
  max_ 2 (int_ (Zi s *' Some fold_ratio)).
Definition shadow_offset (s : Z) : option Z := max_ 1 (int_ (Zi s *' Fl f0_02)).

Definition shadow_color : color := (180, 180, 180).

Definition ipt (x y : Z) : point := (PInt x, PInt y).

(** The first lines of the function: the page bounds and the fold. *)
Definition page_geometry (size : Z) (fold_ratio : num) : option (Z * Z * Z * Z * Z) :=
  let s := size in
  margin ← page_margin s;
  fold ← page_fold s fold_ratio;
  let page_left := margin in
  let page_top := margin in
  let page_right := s - margin - 1 in
  let page_bottom := s - margin - 1 in
  Some (page_left, page_top, page_right, page_bottom, fold).

Definition draw_document_page (draw : image) (size : Z) (fold_ratio : num)
  : option (image * (Z * Z * Z * Z * Z)) :=
  let s := size in
  '(page_left, page_top, page_right, page_bottom, fold) ← page_geometry s fold_ratio;
  draw ←
    (if 32 <=? s then
       shadow_offset ← shadow_offset s;
       let shadow_points :=
         [ ipt (page_left + shadow_offset) (page_top + fold + shadow_offset);
           ipt (page_right - fold + shadow_offset) (page_top + shadow_offset);
           ipt (page_right + shadow_offset) (page_top + fold + shadow_offset);
           ipt (page_right + shadow_offset) (page_bottom + shadow_offset);
           ipt (page_left + shadow_offset) (page_bottom + shadow_offset) ] in
       Some (emit draw (Polygon shadow_points shadow_color None))
     else Some draw);
  let page_points :=
    [ ipt page_left page_top;
      ipt (page_right - fold) page_top;
      ipt page_right (page_top + fold);
      ipt page_right page_bottom;
      ipt page_left page_bottom ] in
  let draw := emit draw (Polygon page_points (255, 255, 255) (Some (200, 200, 200))) in
  let fold_points :=
    [ ipt (page_right - fold) page_top;
      ipt page_right (page_top + fold);
      ipt (page_right - fold) (page_top + fold) ] in
  let draw := emit draw (Polygon fold_points (230, 230, 235) (Some (200, 200, 200))) in
  Some (draw, (page_left, page_top, page_right, page_bottom, fold)).

(** ** draw_app_logo *)

Definition box_ (x0 y0 x1 y1 : option num) : option box :=
  a ← x0; b ← y0; c ← x1; d ← y1; Some (a, b, c, d).
Definition point_ (x y : option num) : option point :=
  a ← x; b ← y; Some (a, b).

Definition logo_radius (r : option num) : option Z := max_ 1 (int_ (r *' Fl f0_25)).
Definition logo_line_w (r : option num) : option Z := max_ 1 (int_ (r *' Fl f0_12)).
Definition logo_diag_w (r : option num) : option Z := max_ 1 (int_ (r *' Fl f0_1)).
Definition logo_dot_r (r : option num) : option Z := max_ 1 (int_ (r *' Fl f0_1)).

Definition draw_app_logo (draw : image) (cx cy logo_size : num) : option image :=
  let cx := Some cx in
  let cy := Some cy in
  let r := Some logo_size /' Zi 2 in
  let bg_margin := r *' Fl f0_1 in
  xy ← box_ (cx -' r -' bg_margin) (cy -' r -' bg_margin)
            (cx +' r +' bg_margin) (cy +' r +' bg_margin);
  radius ← logo_radius r;
  let draw := emit draw (RoundedRectangle xy radius LOGO_BG) in
  let sq_size := r *' Fl f0_55 in
  let sq_x := cx -' r *' Fl f0_45 in
  let sq_y := cy -' r *' Fl f0_45 in
  line_w ← logo_line_w r;
  xy ← box_ (sq_x -' sq_size /' Zi 2) (sq_y -' sq_size /' Zi 2)
            (sq_x +' sq_size /' Zi 2) (sq_y +' sq_size /' Zi 2);
  let draw := emit draw (Rectangle xy None (Some LOGO_SQUARE) (Some line_w)) in
  let circ_r := r *' Fl f0_35 in
  let circ_x := cx +' r *' Fl f0_35 in
  let circ_y := cy +' r *' Fl f0_35 in
  xy ← box_ (circ_x -' circ_r) (circ_y -' circ_r)
            (circ_x +' circ_r) (circ_y +' circ_r);
  let draw := emit draw (Ellipse xy None (Some LOGO_CIRCLE) (Some line_w)) in
  let line_x1 := cx -' r *' Fl f0_65 in
  let line_y1 := cy +' r *' Fl f0_55 in
  let line_x2 := cx +' r *' Fl f0_6 in
  let line_y2 := cy -' r *' Fl f0_6 in
  p1 ← point_ line_x1 line_y1;
  p2 ← point_ line_x2 line_y2;
  width ← logo_diag_w r;
  let draw := emit draw (Line [p1; p2] LOGO_LINE width) in
  dot_r ← logo_dot_r r;
  let dot_r := Zi dot_r in
  xy ← box_ (line_x1 -' dot_r) (line_y1 -' dot_r)
            (line_x1 +' dot_r) (line_y1 +' dot_r);
  let draw := emit draw (Ellipse xy (Some LOGO_DOT) None None) in
  xy ← box_ (line_x2 -' dot_r) (line_y2 -' dot_r)
            (line_x2 +' dot_r) (line_y2 +' dot_r);
  let draw := emit draw (Ellipse xy (Some LOGO_DOT) None None) in
  Some draw.

(** ** draw_extension_label *)

Definition label_height (size : Z) : option Z := max_ 4 (int_ (Zi size *' Fl f0_18)).
Definition label_margin (size : Z) : option Z := max_ 0 (int_ (Zi size *' Fl f0_02)).
Definition label_font_size (label_height : Z) : option Z :=
  max_ 6 (int_ (Zi label_height *' Fl f0_8)).

(** The nested [try]/[except (OSError, IOError)] chain. *)
Definition resolve_font (font_size : Z) : font :=
  match truetype "arialbd.ttf" font_size with
  | Some f => f
  | None =>
      match truetype "arial.ttf" font_size with
      | Some f => f
      | None => load_default
      end
  end.

Definition draw_extension_label (draw : image) (text : string)
    (page_left page_right page_bottom size : Z) (colors : gmap string color)
  : option image :=
  label_height ← label_height size;
  let label_top := page_bottom - label_height in
  label_margin ← label_margin size;
  label_bg ← colors !! "label_bg";
  let draw :=
    emit draw (Rectangle (PInt (page_left + label_margin), PInt label_top,
                          PInt (page_right - label_margin),
                          PInt (page_bottom - label_margin))
                         (Some label_bg) None None) in
  font_size ← label_font_size label_height;
  let fnt := resolve_font font_size in
  let '(b0, b1, b2, b3) := textbbox (PInt 0, PInt 0) text fnt in
  let tw := Some b2 -' Some b0 in
  let th := Some b3 -' Some b1 in
  let tx := Zi (page_left + page_right) /' Zi 2 -' tw /' Zi 2 in
  let ty := Zi label_top +' (Zi (label_height - label_margin) -' th) /' Zi 2 -' Some b1 in
  xy ← point_ tx ty;
  label_text ← colors !! "label_text";
  Some (emit draw (Text xy text label_text fnt)).

(** ** draw_accent_bar *)

Definition bar_height (size : Z) : option Z := max_ 1 (int_ (Zi size *' Fl f0_04)).
Definition bar_margin (size : Z) : option Z := max_ 0 (int_ (Zi size *' Fl f0_02)).

Definition draw_accent_bar (draw : image) (page_left page_top fold size : Z)
    (colors : gmap string color) : option image :=
  bar_height ← bar_height size;
  bar_margin ← bar_margin size;
  xy ← box_ (Zi (page_left + bar_margin)) (Zi (page_top + bar_margin))
            (Zi page_left +' Zi size *' Fl f0_55)
            (Zi (page_top + bar_margin + bar_height));
  accent ← colors !! "accent";
  Some (emit draw (Rectangle xy (Some accent) None None)).

(** ** generate_icon *)

(** [str.upper()] on strings of ASCII characters, the configured
    extensions among them: the letters [a] to [z] are mapped, every other
    character is kept. Outside ASCII Python maps more letters; such
    extensions are outside this model, and what is stated of the label
    text is stated of the configured extensions. *)
Definition upper_ascii (c : ascii) : ascii :=
  let n := nat_of_ascii c in
  if (97 <=? n)%nat && (n <=? 122)%nat then ascii_of_nat (n - 32) else c.

Fixpoint upper (s : string) : string :=
  match s with
  | EmptyString => EmptyString
  | String c s' => String (upper_ascii c) (upper s')
  end.

Definition label_text_for (ext : string) (size : Z) : string :=
  let label_text := ("." ++ upper ext)%string in
  if size <=? 16 then upper ext else label_text.

Definition logo_area_top (pt fold size : Z) : option Z :=
  m ← max_ 1 (int_ (Zi size *' Fl f0_04)); Some (pt + fold + m).
Definition logo_area_bottom (pb size : Z) : option Z :=
  m ← max_ 4 (int_ (Zi size *' Fl f0_20)); Some (pb - m).

(** The logo placement computed in the loop body: center and diameter. *)
Definition logo_placement (size pl pt pr pb fold : Z) : option (num * num * num) :=
  logo_area_top ← logo_area_top pt fold size;
  logo_area_bottom ← logo_area_bottom pb size;
  logo_center_y ← Zi (logo_area_top + logo_area_bottom) /' Zi 2;
  logo_center_x ← Zi (pl + pr) /' Zi 2;
  logo_size ← min_ (Zi (pr - pl) *' Fl f0_55)
                   (Zi (logo_area_bottom - logo_area_top) *' Fl f0_85);
  Some (logo_center_x, logo_center_y, logo_size).

(** One iteration of the loop over [ICO_SIZES]. *)
Definition render_frame (ext : string) (colors : gmap string color) (size : Z)
  : option image :=
  let img := Image_new "RGBA" (size, size) (0, 0, 0, 0) in
  let draw := img in
  '(draw, (pl, pt, pr, pb, fold)) ← draw_document_page draw size (PFloat f0_22);
  draw ← (if 32 <=? size then draw_accent_bar draw pl pt fold size colors
          else Some draw);
  '(logo_center_x, logo_center_y, logo_size) ← logo_placement size pl pt pr pb fold;
  draw ← (if 32 <=? size then draw_app_logo draw logo_center_x logo_center_y logo_size
          else Some draw);
  let label_text := label_text_for ext size in
  draw_extension_label draw label_text pl pr pb size colors.

(** [sorted(images, key=lambda im: im.size[0], reverse=True)]: stable,
    largest first. *)
Fixpoint insert_desc (im : image) (l : list image) : list image :=
  match l with
  | [] => [im]
  | y :: l' =>
      if (im_size im).1 <? (im_size y).1 then y :: insert_desc im l'
      else im :: y :: l'
  end.

Definition sorted_desc (images : list image) : list image :=
  foldr insert_desc [] images.

(** The call [base.save(path, format=..., append_images=...)] as the
    container writer receives it. *)
Record saved_file : Type := Saved {
  sv_name : string;
  sv_format : string;
  sv_base : image;
  sv_append_images : list image
}.

Definition sv_frames (f : saved_file) : list image :=
  sv_base f :: sv_append_images f.

(** The file is written under [ICONS_DIR]; the result is the save call,
    with the name of the file there. The line printed is left out. *)
Definition generate_icon (ext : string) (colors : gmap string color)
  : option saved_file :=
  images ← mapM (render_frame ext colors) ICO_SIZES;
  let output_name := (ext ++ "-document.ico")%string in
  let images_sorted := sorted_desc images in
  match images_sorted with
  | [] => None
  | base :: rest => Some (Saved output_name "ICO" base rest)
  end.

Definition main : option (list saved_file) :=
  mapM (λ '(ext, colors), generate_icon ext colors) COLORS.

(** ** Observations on frames *)

(** The loop body up to the label call, with the page bounds the label
    call receives. *)
Definition frame_prefix (colors : gmap string color) (size : Z)
  : option (image * (Z * Z * Z)) :=
  let draw := Image_new "RGBA" (size, size) (0, 0, 0, 0) in
  '(draw, (pl, pt, pr, pb, fold)) ← draw_document_page draw size (PFloat f0_22);
  draw ← (if 32 <=? size then draw_accent_bar draw pl pt fold size colors
          else Some draw);
  '(logo_center_x, logo_center_y, logo_size) ← logo_placement size pl pt pr pb fold;
  draw ← (if 32 <=? size then draw_app_logo draw logo_center_x logo_center_y logo_size
          else Some draw);
  Some (draw, (pl, pr, pb)).

(** What a draw call is: the method, its fill and its outline. *)
Definition op_summary (op : draw_op) : string * option color * option color :=
  match op with
  | Polygon _ f o => ("polygon"%string, Some f, o)
  | RoundedRectangle _ _ f => ("rounded_rectangle"%string, Some f, None)
  | Rectangle _ f o _ => ("rectangle"%string, f, o)
  | Ellipse _ f o _ => ("ellipse"%string, f, o)
  | Line _ f _ => ("line"%string, Some f, None)
  | Text _ _ f _ => ("text"%string, Some f, None)
  end.

(** The texts drawn on a frame, with their fonts. *)
Definition op_text (op : draw_op) : option (string * font) :=
  match op with
  | Text _ t _ f => Some (t, f)
  | _ => None
  end.

Definition frame_texts (img : image) : list (string * font) :=
  omap op_text (im_ops img).

End Renderers.

(** The calls made on a frame before the label: page body and folded
    corner at every size; from 32 pixels on, the shadow first, then the
    accent bar and the six shapes of the logo. *)
Definition prefix_summary (accent : color) (size : Z)
  : list (string * option color * option color) :=
  let page :=
    [ ("polygon"%string, Some (255, 255, 255), Some (200, 200, 200));
      ("polygon"%string, Some (230, 230, 235), Some (200, 200, 200)) ] in
  if 32 <=? size then
    [ ("polygon"%string, Some (180, 180, 180), None) ] ++ page ++
    [ ("rectangle"%string, Some accent, None);
      ("rounded_rectangle"%string, Some LOGO_BG, None);
      ("rectangle"%string, None, Some LOGO_SQUARE);
      ("ellipse"%string, None, Some LOGO_CIRCLE);
      ("line"%string, Some LOGO_LINE, None);
      ("ellipse"%string, Some LOGO_DOT, None);
      ("ellipse"%string, Some LOGO_DOT, None) ]
  else page.

(** ** Well-behaved text measurements

    [textbbox] returns four numbers, [int]s or [float]s depending on the
    version of the imaging library; an [int] among them is a pixel count,
    far below the range where the conversion to [float] overflows. *)

Definition big : Z := 2 ^ 1000.

Definition sane (n : Z) (x : num) : Prop :=
  match x with
  | PInt z => Z.abs z < n
  | PFloat _ => True
  end.

Definition sane_box (b : box) : Prop :=
  let '(b0, b1, b2, b3) := b in
  sane big b0 ∧ sane big b1 ∧ sane big b2 ∧ sane big b3.

(** An expression evaluates, to a value below the bound if it is an [int]. *)
Definition evaluates (n : Z) (x : option num) : Prop :=
  ∃ v, x = Some v ∧ sane n v.

(** A machine without the two named fonts, measuring every label as a
    24x9 pixel box. *)
Module NoFonts.
Inductive font : Type := BuiltinFont.
Definition truetype (name : string) (size : Z) : option font := None.
Definition load_default : font := BuiltinFont.
Definition textbbox (xy : point) (text : string) (f : font) : box :=
  (PInt 0, PInt 2, PInt 24, PInt 11).
End NoFonts.

Definition frame_side {font : Type} (im : @image font) : Z := (im_size im).1.

(** ** Exact values, to compare the binary64 results with *)

(** The exact value of a number as a multiple of [2^-k]. *)
Definition num_scaled (k : Z) (x : num) : option Z :=
  match x with
  | PInt z => Some (z * 2 ^ k)
  | PFloat f => float_scaled k f
  end.

(** [⌊(n/d)·x⌋] in exact arithmetic; 1074 binary places hold every
    finite double. *)
Definition floor_of_fraction (n d : Z) (x : num) : option Z :=
  match x with
  | PInt z => Some (n * z / d)
  | PFloat _ => r ← num_scaled 1074 x; Some (n * r / (d * 2 ^ 1074))
  end.

(** An offset: the truncated proportion, clamped from below at [lo]. *)
Definition clamped_floor (lo n d : Z) (x : num) : option Z :=
  Z.max lo <$> floor_of_fraction n d x.

(** The logo radius [r = logo_size / 2] of the frame of a size. *)
Definition frame_logo_r (size : Z) : option num :=
  '(pl, pt, pr, pb, fold) ← page_geometry size (PFloat f0_22);
  '(_, _, logo_size) ← logo_placement size pl pt pr pb fold;
  Some logo_size /' Zi 2.

(** The offset [o] is [⌊(n/d)·x⌋] clamped from below at [lo]. *)
Definition offset_is (o : option Z) (lo n d : Z) (x : num) : Prop :=
  ∃ v, o = Some v ∧ clamped_floor lo n d x = Some v ∧ lo ≤ v.

(** ** The specification's reading of the geometry *)

(** The specification's "round": arithmetic rounding of the rational
    [n/d] ([d > 0]) to the nearest integer, halves upward. *)
Definition spec_round (n d : Z) : Z := (2 * n + d) / (2 * d).

(** The specification's logo region, "vertically between
    (page_top+fold+4%size) and (page_bottom − max(4, 20%size))": both
    ends, in hundredths of a pixel. *)
Definition spec_logo_top_x100 (pt fold size : Z) : Z := 100 * (pt + fold) + 4 * size.
Definition spec_logo_bottom_x100 (pb size : Z) : Z := 100 * pb - Z.max 400 (20 * size).

(** The specification's offset of [n]% of the size, by its "round then
    floor at 1" rule. *)
Definition spec_offset (n s : Z) : Z := Z.max 1 (spec_round (n * s) 100).

(** The specification's "margin = max(1, round(0.08·s))" and
    "fold = max(2, round(fold_ratio·s))", at the default ratio 0.22. *)
Definition spec_margin (s : Z) : Z := Z.max 1 (spec_round (8 * s) 100).
Definition spec_fold (s : Z) : Z := Z.max 2 (spec_round (22 * s) 100).

(** ** Where the draw calls land *)

Section Placement.
Context {font : Type}.

(** [x <= y], exact between [int]s and [float]s. *)
Definition num_leb (x y : num) : bool := negb (py_lt y x).

(** A box is given by two corners, left and top first. *)
Definition box_ordered (b : box) : bool :=
  let '(x0, y0, x1, y1) := b in num_leb x0 x1 && num_leb y0 y1.

Definition point_in (b : box) (p : point) : bool :=
  let '(x0, y0, x1, y1) := b in
  num_leb x0 p.1 && num_leb p.1 x1 && num_leb y0 p.2 && num_leb p.2 y1.

(** The points a draw call is given: vertices, corners, or the anchor of
    a text. *)
Definition op_points (op : @draw_op font) : list point :=
  match op with
  | Polygon xy _ _ => xy
  | RoundedRectangle (x0, y0, x1, y1) _ _ => [(x0, y0); (x1, y1)]
  | Rectangle (x0, y0, x1, y1) _ _ _ => [(x0, y0); (x1, y1)]
  | Ellipse (x0, y0, x1, y1) _ _ _ => [(x0, y0); (x1, y1)]
  | Line xy _ _ => xy
  | Text xy _ _ _ => [xy]
  end.

(** The calls that take a box are given an ordered one. *)
Definition op_box_ordered (op : @draw_op font) : bool :=
  match op with
  | RoundedRectangle b _ _ => box_ordered b
  | Rectangle b _ _ _ => box_ordered b
  | Ellipse b _ _ _ => box_ordered b
  | _ => true
  end.

Definition op_inside (b : box) (op : @draw_op font) : bool :=
  forallb (point_in b) (op_points op).

(** The pixels of a canvas of side [s]: integer points of [0 .. s-1]. *)
Definition pixel_of (s : Z) (p : point) : Prop :=
  ∃ x y, p = (PInt x, PInt y) ∧ 0 ≤ x ≤ s - 1 ∧ 0 ≤ y ≤ s - 1.

(** The image with the calls made on it since an earlier state. *)
Definition extends (draw draw' : @image font) (new : list draw_op) : Prop :=
  im_mode draw' = im_mode draw
  ∧ im_size draw' = im_size draw
  ∧ im_background draw' = im_background draw
  ∧ im_ops draw' = im_ops draw ++ new.

End Placement.

(** The calls of the logo, whatever its place and size. *)
Definition logo_summary : list (string * option color * option color) :=
  [ ("rounded_rectangle"%string, Some LOGO_BG, None);
    ("rectangle"%string, None, Some LOGO_SQUARE);
    ("ellipse"%string, None, Some LOGO_CIRCLE);
    ("line"%string, Some LOGO_LINE, None);
    ("ellipse"%string, Some LOGO_DOT, None);
    ("ellipse"%string, Some LOGO_DOT, None) ].

(** ** The container writer

    [save(format="ICO")] belongs to the imaging library, not to the
    repository: the script decides its arguments only. It passes no
    [sizes], so the writer takes its own default list. For every side of
    that list, in ascending order, that fits the base image and 256, the
    writer emits one frame: the first handed image of that size when
    there is one, and otherwise a copy of the base resampled to it. *)
Definition ICO_DEFAULT_SIZES : list Z := [16; 24; 32; 48; 64; 128; 256].

Inductive ico_frame {font : Type} : Type :=
| AsHanded (im : @image font)
| Resampled (side : Z) (base : @image font).

Definition ico_frame_side {font : Type} (f : @ico_frame font) : Z :=
  match f with
  | AsHanded im => frame_side im
  | Resampled side _ => side
  end.

Definition ico_written {font : Type} (out : @saved_file font)
  : list (@ico_frame font) :=
  let provided_ims := sv_frames out in
  let '(width, height) := im_size (sv_base out) in
  omap (λ side,
          if (width <? side) || (height <? side) || (256 <? side) then None
          else
            Some match find (λ im, ((im_size im).1 =? side)
                                   && ((im_size im).2 =? side)) provided_ims with
                 | Some im => AsHanded im
                 | None => Resampled side (sv_base out)
                 end)
       ICO_DEFAULT_SIZES.

(** * Properties *)

(** ** The number model on known values *)

(** The literals are the doubles the interpreter reads:
    [0.1 = 0x1.999999999999ap-4], [0.08 = 0x1.47ae147ae147bp-4],
    [0.22 = 0x1.c28f5c28f5c29p-3]. *)
Lemma float_literals :
  f0_1 = S754_finite false 0x1999999999999a (-56)
  ∧ f0_08 = S754_finite false 0x147ae147ae147b (-56)
  ∧ f0_22 = S754_finite false 0x1c28f5c28f5c29 (-55).
Proof. repeat split. Qed.

(** The conversion raises exactly where the rounded value leaves the
    doubles: one below the threshold gives the largest double. *)
Lemma overflow_threshold_sharp :
  float_of_int (overflow_threshold - 1)
  = Some (S754_finite false (2 ^ 53 - 1) 971)
  ∧ binary_normalize prec emax overflow_threshold 0 false = S754_infinity false
  ∧ float_of_int overflow_threshold = None.
Proof. repeat split; vm_compute; reflexivity. Qed.

(** True division of [int]s: [15 / 2 = 7.5], [1 / 3 = 0x1.5555555555555p-2],
    [0 / -5 = -0.0]. *)
Lemma int_truediv_values :
  int_truediv 15 2 = Some (S754_finite false 0x1e000000000000 (-50))
  ∧ int_truediv 1 3 = Some (S754_finite false 0x15555555555555 (-54))
  ∧ int_truediv 0 (-5) = Some (S754_zero true)
  ∧ int_truediv 1 0 = None.
Proof. repeat split; vm_compute; reflexivity. Qed.

(** [int()] truncates toward zero: [int(2.56) = 2], [int(-2.56) = -2]. *)
Lemma trunc_float_values :
  (f ← float_of_int 32; trunc_float (SFmul prec emax f f0_08)) = Some 2
  ∧ (f ← float_of_int (-32); trunc_float (SFmul prec emax f f0_08)) = Some (-2).
Proof. repeat split; vm_compute; reflexivity. Qed.

(** ** Arithmetic that cannot raise *)

Lemma big_threshold : 8 * big < overflow_threshold.
Proof. reflexivity. Qed.

Lemma big_pos : 0 < big.
Proof. reflexivity. Qed.

Lemma float_of_int_total z :
  Z.abs z < overflow_threshold → is_Some (float_of_int z).
Proof.
  intros H. unfold float_of_int.
  destruct (Z.ltb_spec (Z.abs z) overflow_threshold); [eauto | lia].
Qed.

Lemma to_float_total n x :
  sane n x → n ≤ overflow_threshold → is_Some (to_float x).
Proof.
  destruct x as [z|f]; simpl; intros Hs Hn; [|eauto].
  apply float_of_int_total. lia.
Qed.

Lemma evaluates_Zi n z : Z.abs z < n → evaluates n (Zi z).
Proof. intros H. exists (PInt z). split; [reflexivity | exact H]. Qed.

Lemma evaluates_Some n v : sane n v → evaluates n (Some v).
Proof. intros H. exists v. split; [reflexivity | exact H]. Qed.

Section Arith.
Variables (a b : Z) (x y : option num).
Hypothesis Hx : evaluates a x.
Hypothesis Hy : evaluates b y.
Hypothesis Ha : a ≤ overflow_threshold.
Hypothesis Hb : b ≤ overflow_threshold.

Local Ltac mixed_cases vx vy Hfx Hfy :=
  destruct vx as [?|?], vy as [?|?]; simpl in *;
  [ eexists; split; [reflexivity|]; simpl; lia
  | rewrite Hfx; eexists; split; [reflexivity|exact Logic.I]
  | rewrite Hfy; eexists; split; [reflexivity|exact Logic.I]
  | eexists; split; [reflexivity|exact Logic.I] ].

Lemma evaluates_sub : evaluates (a + b) (x -' y).
Proof.
  destruct Hx as (vx & -> & Hvx), Hy as (vy & -> & Hvy).
  destruct (to_float_total a vx Hvx Ha) as [fx Hfx].
  destruct (to_float_total b vy Hvy Hb) as [fy Hfy].
  mixed_cases vx vy Hfx Hfy.
Qed.

Lemma evaluates_add : evaluates (a + b) (x +' y).
Proof.
  destruct Hx as (vx & -> & Hvx), Hy as (vy & -> & Hvy).
  destruct (to_float_total a vx Hvx Ha) as [fx Hfx].
  destruct (to_float_total b vy Hvy Hb) as [fy Hfy].
  mixed_cases vx vy Hfx Hfy.
Qed.

Lemma evaluates_half : evaluates 1 (x /' Zi 2).
Proof.
  destruct Hx as (vx & -> & Hvx).
  destruct vx as [zx|gx]; simpl in *.
  - unfold int_truediv. simpl (2 =? 0). cbv iota.
    destruct (Z.ltb_spec (Z.abs zx) (overflow_threshold * Z.abs 2)); [|lia].
    eexists; split; [reflexivity|exact Logic.I].
  - eexists; split; [reflexivity|exact Logic.I].
Qed.
End Arith.

(** ** Offsets at the configured sizes *)

Local Ltac by_evaluation :=
  first [ vm_compute; reflexivity | vm_compute; discriminate ].

Local Ltac offset_by_evaluation :=
  eexists; split; [by_evaluation|]; split; by_evaluation.

(** C1, as stated, fails: at 16 pixels the label margin is 0, neither
    at least 1 nor the value of the "round then floor at 1" rule. *)
Lemma label_margin_16_is_zero :
  label_margin 16 = Some 0
  ∧ ¬ (∃ v, label_margin 16 = Some v ∧ 1 ≤ v)
  ∧ label_margin 16 ≠ Some (spec_offset 2 16).
Proof.
  assert (H : label_margin 16 = Some 0) by by_evaluation.
  split; [exact H|]. rewrite H. split.
  - intros (v & [= <-] & Hv). lia.
  - by_evaluation.
Qed.

(** C1, amended. At every size of the list each offset is a
    non-negative integer: the size-proportional value truncated toward
    zero, then clamped from below at its own minimum, which is 1 for the
    page margin, the shadow offset, the accent-bar height and the logo's
    corner radius, stroke widths and dot radius, 2 for the fold, 4 for the
    label height, and 0 for the label margin and the accent-bar margin. *)
Theorem offsets_truncated_then_clamped :
  Forall (λ s,
    offset_is (page_margin s) 1 8 100 (PInt s)
    ∧ offset_is (page_fold s (PFloat f0_22)) 2 22 100 (PInt s)
    ∧ offset_is (shadow_offset s) 1 2 100 (PInt s)
    ∧ offset_is (label_height s) 4 18 100 (PInt s)
    ∧ offset_is (label_margin s) 0 2 100 (PInt s)
    ∧ offset_is (bar_height s) 1 4 100 (PInt s)
    ∧ offset_is (bar_margin s) 0 2 100 (PInt s)
    ∧ ∃ r, frame_logo_r s = Some r
        ∧ offset_is (logo_radius (Some r)) 1 25 100 r
        ∧ offset_is (logo_line_w (Some r)) 1 12 100 r
        ∧ offset_is (logo_diag_w (Some r)) 1 10 100 r
        ∧ offset_is (logo_dot_r (Some r)) 1 10 100 r) ICO_SIZES.
Proof.
  unfold ICO_SIZES.
  repeat (constructor;
    [ do 7 (split; [offset_by_evaluation|]);
      eexists; split; [by_evaluation|];
      do 3 (split; [offset_by_evaluation|]); offset_by_evaluation |]).
  constructor.
Qed.

(** C7, as stated, fails: at 48 pixels the region starts at 14, not at
    3 + 10 + 1.92, and ends at 35, not at 44 - 9.6. *)
Lemma logo_region_48_not_proportional :
  page_geometry 48 (PFloat f0_22) = Some (3, 3, 44, 44, 10)
  ∧ logo_area_top 3 10 48 = Some 14
  ∧ 100 * 14 ≠ spec_logo_top_x100 3 10 48
  ∧ logo_area_bottom 44 48 = Some 35
  ∧ 100 * 35 ≠ spec_logo_bottom_x100 44 48.
Proof. repeat split; by_evaluation. Qed.

(** C7, amended. At every size of the list the logo region runs
    vertically from [page_top + fold + max(1, ⌊4% of size⌋)] to
    [page_bottom - max(4, ⌊20% of size⌋)]; the logo center is the exact
    midpoint of [page_left] and [page_right] and of the two ends of the
    region; the logo diameter is the smaller of the binary64 products
    [(page_right - page_left) * 0.55] and [(bottom - top) * 0.85], within
    [2^-40] of the smaller of 55% of that width and 85% of that extent. *)
Theorem logo_region_placement :
  Forall (λ s,
    ∃ pl pt pr pb fold top bottom cx cy d a b D,
      page_geometry s (PFloat f0_22) = Some (pl, pt, pr, pb, fold)
      ∧ logo_area_top pt fold s = Some top
      ∧ logo_area_bottom pb s = Some bottom
      ∧ top = pt + fold + Z.max 1 (4 * s / 100)
      ∧ bottom = pb - Z.max 4 (20 * s / 100)
      ∧ logo_placement s pl pt pr pb fold = Some (cx, cy, d)
      ∧ num_scaled 1 cx = Some (pl + pr)
      ∧ num_scaled 1 cy = Some (top + bottom)
      ∧ Zi (pr - pl) *' Fl f0_55 = Some a
      ∧ Zi (bottom - top) *' Fl f0_85 = Some b
      ∧ d = py_min a b
      ∧ num_scaled 60 d = Some D
      ∧ Z.abs (100 * D - Z.min (55 * (pr - pl)) (85 * (bottom - top)) * 2 ^ 60)
        ≤ 100 * 2 ^ 20) ICO_SIZES.
Proof.
  unfold ICO_SIZES.
  repeat (constructor;
    [ do 13 eexists;
      do 12 (split; [by_evaluation|]); by_evaluation |]).
  constructor.
Qed.

(** ** The renderers, one by one *)

Section RendererFacts.
Context {font : Type}.
Variable truetype : string → Z → option font.
Variable load_default : font.
Variable textbbox : point → string → font → box.

Local Abbreviation frame := (render_frame truetype load_default textbbox).
Local Abbreviation label := (draw_extension_label truetype load_default textbbox).
Local Abbreviation chosen_font := (resolve_font truetype load_default).
Local Abbreviation icon := (generate_icon truetype load_default textbbox).

Lemma render_frame_split ext colors size :
  frame ext colors size =
  '(draw, (pl, pr, pb)) ← frame_prefix colors size;
  label draw (label_text_for ext size) pl pr pb size colors.
Proof.
  unfold render_frame, frame_prefix.
  destruct (draw_document_page _ _ _) as [[d [[[[pl pt] pr] pb] fold]]|];
    cbn [mbind option_bind]; [|reflexivity].
  destruct (if 32 <=? size then _ else _) as [d1|];
    cbn [mbind option_bind]; [|reflexivity].
  destruct (logo_placement _ _ _ _ _ _) as [[[cx cy] ls]|];
    cbn [mbind option_bind]; [|reflexivity].
  destruct (if 32 <=? size then _ else _) as [d2|];
    cbn [mbind option_bind]; reflexivity.
Qed.

Lemma draw_accent_bar_colors (draw : @image font) pl pt fold size
    (c1 c2 : gmap string color) :
  c1 !! "accent"%string = c2 !! "accent"%string →
  draw_accent_bar draw pl pt fold size c1 = draw_accent_bar draw pl pt fold size c2.
Proof. intros H. unfold draw_accent_bar. rewrite H. reflexivity. Qed.

Lemma frame_prefix_colors (c1 c2 : gmap string color) size :
  c1 !! "accent"%string = c2 !! "accent"%string →
  frame_prefix (font := font) c1 size = frame_prefix c2 size.
Proof.
  intros H. unfold frame_prefix.
  destruct (draw_document_page _ _ _) as [[d [[[[pl pt] pr] pb] fold]]|];
    cbn [mbind option_bind]; [|reflexivity].
  rewrite (draw_accent_bar_colors d pl pt fold size c1 c2 H). reflexivity.
Qed.

Lemma draw_extension_label_colors (draw : @image font) text pl pr pb size
    (c1 c2 : gmap string color) :
  c1 !! "label_bg"%string = c2 !! "label_bg"%string →
  c1 !! "label_text"%string = c2 !! "label_text"%string →
  label draw text pl pr pb size c1 =
  label draw text pl pr pb size c2.
Proof.
  intros H1 H2. unfold draw_extension_label. rewrite H1, H2. reflexivity.
Qed.

(** With a well-behaved measurement the label renderer issues its two
    calls: the bar, then the text in the resolved font. *)
Lemma draw_extension_label_shape draw text pl pr pb size colors lh lm fs bg fg :
  (∀ xy t f, sane_box (textbbox xy t f)) →
  label_height size = Some lh →
  label_margin size = Some lm →
  label_font_size lh = Some fs →
  colors !! "label_bg"%string = Some bg →
  colors !! "label_text"%string = Some fg →
  Z.abs (pl + pr) < big → Z.abs (pb - lh) < big → Z.abs (lh - lm) < big →
  ∃ xy,
    label draw text pl pr pb size colors
    = Some (emit (emit draw (Rectangle (PInt (pl + lm), PInt (pb - lh),
                                        PInt (pr - lm), PInt (pb - lm))
                                       (Some bg) None None))
                 (Text xy text fg (chosen_font fs))).
Proof.
  intros textbbox_sane Hlh Hlm Hfs Hbg Hfg B1 B2 B3.
  unfold draw_extension_label.
  rewrite Hlh; cbn [mbind option_bind]. rewrite Hlm; cbn [mbind option_bind].
  rewrite Hbg; cbn [mbind option_bind]. rewrite Hfs; cbn [mbind option_bind].
  pose proof (textbbox_sane (PInt 0, PInt 0) text (chosen_font fs)) as Hs.
  destruct (textbbox _ _ _) as [[[b0 b1] b2] b3].
  destruct Hs as (S0 & S1 & S2 & S3).
  pose proof big_threshold as BT. pose proof big_pos as BP.
  assert (Htw : evaluates (big + big) (Some b2 -' Some b0)).
  { apply evaluates_sub; try lia; by apply evaluates_Some. }
  assert (Hth : evaluates (big + big) (Some b3 -' Some b1)).
  { apply evaluates_sub; try lia; by apply evaluates_Some. }
  assert (Htx : evaluates (1 + 1)
            (Zi (pl + pr) /' Zi 2 -' (Some b2 -' Some b0) /' Zi 2)).
  { apply evaluates_sub; try lia.
    - eapply evaluates_half; [by apply evaluates_Zi|lia].
    - eapply evaluates_half; [exact Htw|lia]. }
  assert (Hty : evaluates (big + 1 + big)
            (Zi (pb - lh) +' (Zi (lh - lm) -' (Some b3 -' Some b1)) /' Zi 2
             -' Some b1)).
  { apply evaluates_sub; try lia; [|by apply evaluates_Some].
    apply evaluates_add; try lia; [by apply evaluates_Zi|].
    eapply evaluates_half with (a := big + (big + big)); [|lia].
    apply evaluates_sub; try lia; [by apply evaluates_Zi|exact Hth]. }
  destruct Htx as (tx & Etx & _), Hty as (ty & Ety & _).
  exists (tx, ty). unfold point_. rewrite Etx, Ety. cbn [mbind option_bind].
  rewrite Hfg. reflexivity.
Qed.

(** The frame of each configured size, call by call. *)
Lemma frame_shape ext colors accent bg fg size :
  (∀ xy t f, sane_box (textbbox xy t f)) →
  colors !! "accent"%string = Some accent →
  colors !! "label_bg"%string = Some bg →
  colors !! "label_text"%string = Some fg →
  size ∈ ICO_SIZES →
  ∃ pre lbox xy lh fs,
    frame ext colors size
    = Some (Image "RGBA" (size, size) (0, 0, 0, 0)
              (pre ++ [Rectangle lbox (Some bg) None None;
                       Text xy (label_text_for ext size) fg (chosen_font fs)]))
    ∧ map op_summary pre = prefix_summary accent size
    ∧ omap op_text pre = []
    ∧ label_height size = Some lh ∧ label_font_size lh = Some fs.
Proof.
  intros Hsane Hacc Hbg Hfg Hin.
  assert (Hsingle : colors !! "accent"%string
                    = ({[ "accent"%string := accent ]} : gmap string color)
                        !! "accent"%string).
  { rewrite Hacc. symmetry. apply lookup_singleton_eq. }
  unfold ICO_SIZES in Hin.
  repeat (apply elem_of_cons in Hin as [->|Hin]); [..|by apply elem_of_nil in Hin].
  all: rewrite render_frame_split;
    rewrite (frame_prefix_colors _ _ _ Hsingle);
    destruct (frame_prefix _ _) as [[d [[pl pr] pb]]|] eqn:Hp;
    vm_compute in Hp; [|discriminate];
    injection Hp as <- <- <- <-; cbn [mbind option_bind];
    match goal with
    | |- context [draw_extension_label _ _ _ ?d ?t ?pl ?pr ?pb ?s ?c] =>
        edestruct (draw_extension_label_shape d t pl pr pb s c) as [xy Hxy]
    end;
    [ exact Hsane | vm_compute; reflexivity | vm_compute; reflexivity
    | vm_compute; reflexivity | exact Hbg | exact Hfg
    | reflexivity | reflexivity | reflexivity | ];
    rewrite Hxy; unfold emit; cbn [im_mode im_size im_background im_ops];
    rewrite <- app_assoc;
    match goal with
    | |- context [Some (Image _ _ _ (?ops ++ _ ++ _))] => exists ops
    end;
    do 4 eexists; split; [reflexivity|];
    split; [reflexivity|]; split; [reflexivity|];
    split; [vm_compute; reflexivity|]; vm_compute; reflexivity.
Qed.

End RendererFacts.

(** ** Frames and containers *)

Section Assembly.
Context {font : Type}.
Variable truetype : string → Z → option font.
Variable load_default : font.
Variable textbbox : point → string → font → box.
Hypothesis textbbox_sane : ∀ xy t f, sane_box (textbbox xy t f).

Local Abbreviation frame := (render_frame truetype load_default textbbox).
Local Abbreviation chosen_font := (resolve_font truetype load_default).
Local Abbreviation icon := (generate_icon truetype load_default textbbox).

Lemma configured_colors ext colors :
  (ext, colors) ∈ COLORS →
  ∃ accent bg fg,
    colors !! "accent"%string = Some accent
    ∧ colors !! "label_bg"%string = Some bg
    ∧ colors !! "label_text"%string = Some fg.
Proof.
  unfold COLORS. intros Hin.
  repeat (apply elem_of_cons in Hin as [[= -> ->]|Hin]);
    [..|by apply elem_of_nil in Hin];
    do 3 eexists; repeat split; vm_compute; reflexivity.
Qed.

Lemma icon_shape ext colors accent bg fg :
  colors !! "accent"%string = Some accent →
  colors !! "label_bg"%string = Some bg →
  colors !! "label_text"%string = Some fg →
  ∃ o256 o64 o48 o32 o16,
    icon ext colors
    = Some (Saved (ext ++ "-document.ico")%string "ICO"
              (Image "RGBA" (256, 256) (0, 0, 0, 0) o256)
              [ Image "RGBA" (64, 64) (0, 0, 0, 0) o64;
                Image "RGBA" (48, 48) (0, 0, 0, 0) o48;
                Image "RGBA" (32, 32) (0, 0, 0, 0) o32;
                Image "RGBA" (16, 16) (0, 0, 0, 0) o16 ]).
Proof.
  intros Hacc Hbg Hfg.
  assert (Hf : ∀ s, s ∈ ICO_SIZES → ∃ ops,
             frame ext colors s = Some (Image "RGBA" (s, s) (0, 0, 0, 0) ops)).
  { intros s Hs.
    destruct (frame_shape truetype load_default textbbox ext colors accent bg fg s
                textbbox_sane Hacc Hbg Hfg Hs) as (pre & lbox & xy & lh & fs & E & _).
    eauto. }
  destruct (Hf 16) as [o16 E16]; [unfold ICO_SIZES; repeat constructor|].
  destruct (Hf 32) as [o32 E32]; [unfold ICO_SIZES; repeat constructor|].
  destruct (Hf 48) as [o48 E48]; [unfold ICO_SIZES; repeat constructor|].
  destruct (Hf 64) as [o64 E64]; [unfold ICO_SIZES; repeat constructor|].
  destruct (Hf 256) as [o256 E256]; [unfold ICO_SIZES; repeat constructor|].
  exists o256, o64, o48, o32, o16.
  unfold generate_icon, ICO_SIZES. cbn [mapM].
  rewrite E16, E32, E48, E64, E256. reflexivity.
Qed.


(** C4. At size 16 the frame is the page body, the folded corner, the
    label bar and the label text: no shadow polygon, no accent bar, no
    logo. At every size of the list from 32 on, the frame is the
    shadow, the page, the accent bar, the six shapes of the logo and the
    label. *)
Theorem fidelity_cutoff ext colors accent bg fg :
  colors !! "accent"%string = Some accent →
  colors !! "label_bg"%string = Some bg →
  colors !! "label_text"%string = Some fg →
  (∃ img,
      frame ext colors 16 = Some img
      ∧ map op_summary (im_ops img)
        = [ ("polygon"%string, Some (255, 255, 255), Some (200, 200, 200));
            ("polygon"%string, Some (230, 230, 235), Some (200, 200, 200));
            ("rectangle"%string, Some bg, None);
            ("text"%string, Some fg, None) ])
  ∧ (∀ s, s ∈ ICO_SIZES → 32 ≤ s →
      ∃ img,
        frame ext colors s = Some img
        ∧ map op_summary (im_ops img)
          = [ ("polygon"%string, Some shadow_color, None);
              ("polygon"%string, Some (255, 255, 255), Some (200, 200, 200));
              ("polygon"%string, Some (230, 230, 235), Some (200, 200, 200));
              ("rectangle"%string, Some accent, None);
              ("rounded_rectangle"%string, Some LOGO_BG, None);
              ("rectangle"%string, None, Some LOGO_SQUARE);
              ("ellipse"%string, None, Some LOGO_CIRCLE);
              ("line"%string, Some LOGO_LINE, None);
              ("ellipse"%string, Some LOGO_DOT, None);
              ("ellipse"%string, Some LOGO_DOT, None);
              ("rectangle"%string, Some bg, None);
              ("text"%string, Some fg, None) ]).
Proof.
  intros Hacc Hbg Hfg.
  pose proof (frame_shape truetype load_default textbbox ext colors accent bg fg)
    as Hshape.
  split.
  - destruct (Hshape 16 textbbox_sane Hacc Hbg Hfg) as
      (pre & lbox & xy & lh & fs & E & Hpre & _);
      [unfold ICO_SIZES; repeat constructor|].
    eexists. split; [exact E|].
    cbn [im_ops]. rewrite map_app, Hpre. reflexivity.
  - intros s Hs Hge.
    destruct (Hshape s textbbox_sane Hacc Hbg Hfg Hs) as
      (pre & lbox & xy & lh & fs & E & Hpre & _).
    eexists. split; [exact E|].
    cbn [im_ops]. rewrite map_app, Hpre. unfold prefix_summary.
    destruct (Z.leb_spec 32 s); [reflexivity|lia].
Qed.

(** C5. For every configured file-type, the one text drawn on the frame
    of a size of the list is the extension in capitals, [O2D] for [o2d]
    and [DXF] for [dxf], after a dot when the size is greater than 16 and
    bare when the size is 16. *)
Theorem label_text_by_size ext colors s :
  (ext, colors) ∈ COLORS →
  s ∈ ICO_SIZES →
  ∃ img EXT,
    frame ext colors s = Some img
    ∧ (ext, EXT) ∈ [("o2d", "O2D"); ("dxf", "DXF")]%string
    ∧ (16 < s → map fst (frame_texts img) = [("." ++ EXT)%string])
    ∧ (s = 16 → map fst (frame_texts img) = [EXT]).
Proof.
  intros Hc Hs.
  destruct (configured_colors ext colors Hc) as (accent & bg & fg & Hacc & Hbg & Hfg).
  destruct (frame_shape truetype load_default textbbox ext colors accent bg fg s
              textbbox_sane Hacc Hbg Hfg Hs) as
    (pre & lbox & xy & lh & fs & E & _ & Htxt & _).
  exists (Image "RGBA" (s, s) (0, 0, 0, 0)
            (pre ++ [Rectangle lbox (Some bg) None None;
                     Text xy (label_text_for ext s) fg (chosen_font fs)])),
         (upper ext).
  split; [exact E|]. split.
  - clear -Hc. unfold COLORS in Hc.
    repeat (apply elem_of_cons in Hc as [[= -> _]|Hc]);
      [..|by apply elem_of_nil in Hc]; repeat constructor.
  - unfold frame_texts. cbn [im_ops]. rewrite omap_app, Htxt.
    cbn [omap op_text app map fst]. unfold label_text_for.
    split; intros H.
    + destruct (Z.leb_spec s 16); [lia|reflexivity].
    + subst s. reflexivity.
Qed.

(** C8. Font resolution tries the named sources in order, bold first;
    when both fail it takes the built-in font. It never raises, and on
    every frame of every configured file-type the label renderer reaches
    its draw-text call, made with the resolved font. *)
Theorem font_fallback_never_aborts ext colors s :
  (ext, colors) ∈ COLORS →
  s ∈ ICO_SIZES →
  (∀ fs,
      (∀ f, truetype "arialbd.ttf" fs = Some f → chosen_font fs = f)
      ∧ (∀ f, truetype "arialbd.ttf" fs = None →
              truetype "arial.ttf" fs = Some f → chosen_font fs = f)
      ∧ (truetype "arialbd.ttf" fs = None →
         truetype "arial.ttf" fs = None → chosen_font fs = load_default))
  ∧ ∃ img lh fs,
      frame ext colors s = Some img
      ∧ label_height s = Some lh
      ∧ label_font_size lh = Some fs
      ∧ 6 ≤ fs
      ∧ frame_texts img = [(label_text_for ext s, chosen_font fs)].
Proof.
  intros Hc Hs. split.
  - intros fs. unfold resolve_font.
    destruct (truetype "arialbd.ttf" fs) as [f1|];
      destruct (truetype "arial.ttf" fs) as [f2|];
      repeat split; congruence.
  - destruct (configured_colors ext colors Hc) as
      (accent & bg & fg & Hacc & Hbg & Hfg).
    destruct (frame_shape truetype load_default textbbox ext colors accent bg fg s
                textbbox_sane Hacc Hbg Hfg Hs) as
      (pre & lbox & xy & lh & fs & E & _ & Htxt & Hlh & Hfs).
    exists (Image "RGBA" (s, s) (0, 0, 0, 0)
              (pre ++ [Rectangle lbox (Some bg) None None;
                       Text xy (label_text_for ext s) fg (chosen_font fs)])), lh, fs.
    split; [exact E|]. split; [exact Hlh|]. split; [exact Hfs|]. split.
    + unfold label_font_size, max_ in Hfs.
      destruct (int_ _) as [k|]; [|discriminate].
      injection Hfs as <-. lia.
    + unfold frame_texts. cbn [im_ops]. rewrite omap_app, Htxt. reflexivity.
Qed.

End Assembly.

(** ** The color scheme as an input *)

Section ColorDependence.
Context {font : Type}.
Variable truetype : string → Z → option font.
Variable load_default : font.
Variable textbbox : point → string → font → box.

Local Abbreviation frame := (render_frame truetype load_default textbbox).
Local Abbreviation icon := (generate_icon truetype load_default textbbox).

Lemma mapM_pointwise {A B} (f g : A → option B) (l : list A) :
  (∀ x, f x = g x) → mapM f l = mapM g l.
Proof.
  intros H. induction l as [|x l IH]; [reflexivity|].
  cbn [mapM]. rewrite H, IH. reflexivity.
Qed.

(** C9. Two color schemes that agree on every key but ["accent_dark"]
    give the same frame at every size, raised exceptions included, and
    the same container: no renderer reads ["accent_dark"]. *)
Theorem accent_dark_never_read (c1 c2 : gmap string color) :
  (∀ k : string, k ≠ "accent_dark"%string → c1 !! k = c2 !! k) →
  ∀ ext,
    (∀ size, frame ext c1 size = frame ext c2 size)
    ∧ icon ext c1 = icon ext c2.
Proof.
  intros Hagree ext.
  assert (Hframe : ∀ size, frame ext c1 size = frame ext c2 size).
  { intros size. rewrite !render_frame_split.
    rewrite (frame_prefix_colors c1 c2 size) by (by apply Hagree).
    destruct (frame_prefix c2 size) as [[d [[pl pr] pb]]|];
      cbn [mbind option_bind]; [|reflexivity].
    apply draw_extension_label_colors; by apply Hagree. }
  split; [exact Hframe|].
  unfold generate_icon.
  rewrite (mapM_pointwise _ _ ICO_SIZES Hframe). reflexivity.
Qed.

End ColorDependence.

(** ** The theorems on a machine without the named fonts *)



Lemma fidelity_cutoff_witness :
  ∃ img,
    render_frame NoFonts.truetype NoFonts.load_default NoFonts.textbbox
      "o2d" o2d_colors 16 = Some img
    ∧ map op_summary (im_ops img)
      = [ ("polygon"%string, Some (255, 255, 255), Some (200, 200, 200));
          ("polygon"%string, Some (230, 230, 235), Some (200, 200, 200));
          ("rectangle"%string, Some (59, 130, 246), None);
          ("text"%string, Some (255, 255, 255), None) ].
Proof.
  apply (fidelity_cutoff NoFonts.truetype NoFonts.load_default NoFonts.textbbox)
    with (accent := (59, 130, 246)).
  - intros xy t f. vm_compute. repeat split.
  - vm_compute. reflexivity.
  - vm_compute. reflexivity.
  - vm_compute. reflexivity.
Defined.

Lemma capitals_of_dxf (EXT : string) :
  ("dxf", EXT) ∈ [("o2d", "O2D"); ("dxf", "DXF")]%string → EXT = "DXF"%string.
Proof.
  intros Hin.
  apply elem_of_cons in Hin as [[=]|Hin].
  apply elem_of_cons in Hin as [[= ->]|Hin]; [|by apply elem_of_nil in Hin].
  reflexivity.
Qed.

Lemma label_text_by_size_witness :
  ∃ img,
    render_frame NoFonts.truetype NoFonts.load_default NoFonts.textbbox
      "dxf" dxf_colors 32 = Some img
    ∧ map fst (frame_texts img) = [".DXF"%string].
Proof.
  destruct (label_text_by_size NoFonts.truetype NoFonts.load_default NoFonts.textbbox)
    with (ext := "dxf"%string) (colors := dxf_colors) (s := 32)
    as (img & EXT & E & Hin & Hbig & _).
  - intros xy t f. vm_compute. repeat split.
  - unfold COLORS. repeat constructor.
  - unfold ICO_SIZES. repeat constructor.
  - exists img. split; [exact E|].
    rewrite <- (capitals_of_dxf EXT Hin). apply Hbig. lia.
Defined.

Lemma font_fallback_never_aborts_witness :
  ∃ img,
    render_frame NoFonts.truetype NoFonts.load_default NoFonts.textbbox
      "dxf" dxf_colors 16 = Some img
    ∧ frame_texts img = [("DXF"%string, NoFonts.BuiltinFont)].
Proof.
  destruct (font_fallback_never_aborts
              NoFonts.truetype NoFonts.load_default NoFonts.textbbox)
    with (ext := "dxf"%string) (colors := dxf_colors) (s := 16)
    as (Hchain & img & lh & fs & E & _ & _ & _ & Htxt).
  - intros xy t f. vm_compute. repeat split.
  - unfold COLORS. repeat constructor.
  - unfold ICO_SIZES. repeat constructor.
  - exists img. split; [exact E|]. rewrite Htxt.
    rewrite (proj2 (proj2 (Hchain fs))) by reflexivity. reflexivity.
Defined.

Lemma accent_dark_never_read_witness :
  o2d_colors !! "accent_dark"%string
    ≠ (<["accent_dark"%string := (0, 0, 0)]> o2d_colors) !! "accent_dark"%string
  ∧ generate_icon NoFonts.truetype NoFonts.load_default NoFonts.textbbox "o2d"
      o2d_colors
    = generate_icon NoFonts.truetype NoFonts.load_default NoFonts.textbbox "o2d"
        (<["accent_dark"%string := (0, 0, 0)]> o2d_colors).
Proof.
  split; [vm_compute; discriminate|].
  apply (accent_dark_never_read NoFonts.truetype NoFonts.load_default NoFonts.textbbox).
  intros k Hk. symmetry. apply lookup_insert_ne. congruence.
Defined.

(** ** Binary64 arithmetic on integers

    What the Standard Library's rounding functions compute on the
    operands the script gives them: a positive [int] converted to
    [float], multiplied by a literal below one half, and truncated. *)

Lemma digits2_pos_bounds p :
  2 ^ (Z.pos (digits2_pos p) - 1) ≤ Z.pos p < 2 ^ Z.pos (digits2_pos p).
Proof.
  induction p as [p IH|p IH|]; cbn [digits2_pos].
  - rewrite Pos2Z.inj_succ. change (Z.pos p~1) with (2 * Z.pos p + 1).
    replace (Z.succ (Z.pos (digits2_pos p)) - 1) with (Z.succ (Z.pos (digits2_pos p) - 1)) by lia.
    rewrite !Z.pow_succ_r by lia. lia.
  - rewrite Pos2Z.inj_succ. change (Z.pos p~0) with (2 * Z.pos p).
    replace (Z.succ (Z.pos (digits2_pos p)) - 1) with (Z.succ (Z.pos (digits2_pos p) - 1)) by lia.
    rewrite !Z.pow_succ_r by lia. lia.
  - simpl. lia.
Qed.

Lemma pow2_lt_mono a b : 0 ≤ a → 2 ^ a < 2 ^ b → a < b.
Proof.
  intros Ha H. destruct (Z.lt_ge_cases a b) as [|Hge]; [assumption|].
  destruct (Z.lt_ge_cases b 0) as [Hb|Hb].
  - rewrite (Z.pow_neg_r 2 b Hb) in H. pose proof (Z.pow_pos_nonneg 2 a). lia.
  - pose proof (Z.pow_le_mono_r 2 b a). lia.
Qed.

Lemma digits2_pos_unique p k :
  2 ^ (k - 1) ≤ Z.pos p < 2 ^ k → Z.pos (digits2_pos p) = k.
Proof.
  intros [Hlo Hhi]. pose proof (digits2_pos_bounds p) as [Dlo Dhi].
  assert (0 < k).
  { destruct (Z.lt_ge_cases 0 k); [assumption|].
    assert (2 ^ k ≤ 2 ^ 0) by (destruct (Z.lt_ge_cases k 0);
      [rewrite Z.pow_neg_r by lia; simpl; lia | apply Z.pow_le_mono_r; lia]).
    simpl in *. lia. }
  assert (k - 1 < Z.pos (digits2_pos p)) by (apply pow2_lt_mono; lia).
  assert (Z.pos (digits2_pos p) - 1 < k) by (apply pow2_lt_mono; lia).
  lia.
Qed.

Lemma shr_1_nonneg m r s :
  0 ≤ m → shr_1 (Build_shr_record m r s) = Build_shr_record (m / 2) (Z.odd m) (r || s).
Proof.
  intros Hm. rewrite <- Z.div2_div.
  destruct m as [|[p|p|]|p]; try reflexivity. lia.
Qed.

Lemma iter_shr_1 p :
  ∀ m r s, 0 ≤ m →
    shr_m (SpecFloat.iter_pos shr_1 p (Build_shr_record m r s)) = m / 2 ^ Z.pos p
    ∧ shr_r (SpecFloat.iter_pos shr_1 p (Build_shr_record m r s)) = Z.odd (m / 2 ^ (Z.pos p - 1)).
Proof.
  assert (Hrec : ∀ x : shr_record, x = Build_shr_record (shr_m x) (shr_r x) (shr_s x))
    by (by intros []).
  assert (Hdd : ∀ m a b, 0 ≤ a → 0 ≤ b → m / 2 ^ a / 2 ^ b = m / 2 ^ (a + b)).
  { intros m a b Ha Hb. rewrite Z.pow_add_r by lia.
    apply Zdiv.Zdiv_Zdiv; apply Z.pow_nonneg; lia. }
  induction p as [p IH|p IH|]; intros m r s Hm; cbn [SpecFloat.iter_pos].
  - rewrite (shr_1_nonneg m r s Hm).
    assert (H2 : 0 ≤ m / 2) by (apply Z.div_pos; lia).
    pose proof (IH (m / 2) (Z.odd m) (r || s) H2) as [E1 _].
    destruct (SpecFloat.iter_pos shr_1 p _) as [m1 r1 s1]. cbn [shr_m] in E1. subst m1.
    assert (H3 : 0 ≤ m / 2 / 2 ^ Z.pos p)
      by (apply Z.div_pos; [lia|apply Z.pow_pos_nonneg; lia]).
    destruct (IH _ r1 s1 H3) as [E2 E3]. rewrite E2, E3.
    change (m / 2) with (m / 2 ^ 1). rewrite !Hdd by lia.
    change (Z.pos p~1) with (2 * Z.pos p + 1). split; [do 2 f_equal; lia | do 3 f_equal; lia].
  - pose proof (IH m r s Hm) as [E1 _].
    destruct (SpecFloat.iter_pos shr_1 p _) as [m1 r1 s1]. cbn [shr_m] in E1. subst m1.
    assert (H3 : 0 ≤ m / 2 ^ Z.pos p)
      by (apply Z.div_pos; [lia|apply Z.pow_pos_nonneg; lia]).
    destruct (IH _ r1 s1 H3) as [E2 E3]. rewrite E2, E3. rewrite !Hdd by lia.
    change (Z.pos p~0) with (2 * Z.pos p). split; [do 2 f_equal; lia | do 3 f_equal; lia].
  - rewrite (shr_1_nonneg m r s Hm). cbn [shr_m shr_r].
    split; [reflexivity|]. simpl (2 ^ (1 - 1)). by rewrite Z.div_1_r.
Qed.

Lemma round_nearest_even_range q l :
  q ≤ round_nearest_even q l ≤ q + 1.
Proof.
  destruct l as [|[| |]]; cbn [round_nearest_even]; try lia.
  destruct (Z.even q); lia.
Qed.

Lemma round_nearest_even_low x :
  shr_r x = false →
  round_nearest_even (shr_m x) (loc_of_shr_record x) = shr_m x.
Proof. destruct x as [m [|] [|]]; cbn; congruence. Qed.

Lemma shr_nonpos mrs e k : k ≤ 0 → shr mrs e k = (mrs, e).
Proof. destruct k; [reflexivity|lia|reflexivity]. Qed.

Lemma binary_round_aux_exact (m : positive) e :
  Z.pos (digits2_pos m) ≤ 53 → -1074 ≤ e →
  binary_round_aux prec emax false (Z.pos m) e loc_Exact
  = if e <=? 971 then S754_finite false m e else S754_infinity false.
Proof.
  intros Hd He.
  unfold binary_round_aux, shr_fexp, fexp, emin, prec, emax.
  cbn [Zdigits2 shr_record_of_loc].
  rewrite shr_nonpos by lia.
  cbn [shr_m loc_of_shr_record round_nearest_even Zdigits2 shr_record_of_loc].
  rewrite shr_nonpos by lia. reflexivity.
Qed.

Lemma pow2_div a b : 0 ≤ b ≤ a → 2 ^ a / 2 ^ b = 2 ^ (a - b).
Proof.
  intros H. replace a with ((a - b) + b) at 1 by lia.
  rewrite Z.pow_add_r by lia. apply Z.div_mul.
  pose proof (Z.pow_pos_nonneg 2 b). lia.
Qed.

Lemma binary_round_aux_round (m : positive) e :
  let n := Z.pos (digits2_pos m) - 53 in
  0 < n → -1074 ≤ e + n →
  ∃ m1 : positive,
    Z.pos m / 2 ^ n ≤ Z.pos m1 ≤ Z.pos m / 2 ^ n + 1
    ∧ 2 ^ 52 ≤ Z.pos m / 2 ^ n < 2 ^ 53
    ∧ (Z.odd (Z.pos m / 2 ^ (n - 1)) = false → Z.pos m1 = Z.pos m / 2 ^ n)
    ∧ binary_round_aux prec emax false (Z.pos m) e loc_Exact
      = if Z.pos m1 <? 2 ^ 53
        then (if e + n <=? 971 then S754_finite false m1 (e + n)
              else S754_infinity false)
        else (if e + n + 1 <=? 971
              then S754_finite false (2 ^ 52)%positive (e + n + 1)
              else S754_infinity false).
Proof.
  intros n Hn He.
  pose proof (digits2_pos_bounds m) as [Dlo Dhi].
  assert (Hq : 2 ^ 52 ≤ Z.pos m / 2 ^ n < 2 ^ 53).
  { assert (0 < 2 ^ n) by (apply Z.pow_pos_nonneg; lia).
    split.
    - replace (2 ^ 52) with (2 ^ (Z.pos (digits2_pos m) - 1) / 2 ^ n).
      2:{ rewrite pow2_div by lia. f_equal. lia. }
      apply Z.div_le_mono; lia.
    - apply Z.div_lt_upper_bound; [lia|].
      rewrite <- Z.pow_add_r by lia.
      replace (n + 53) with (Z.pos (digits2_pos m)) by lia. lia. }
  unfold binary_round_aux, shr_fexp, fexp, emin, prec, emax.
  cbn [Zdigits2 shr_record_of_loc].
  replace (Z.max (Z.pos (digits2_pos m) + e - 53) (3 - 1024 - 53) - e) with n by lia.
  destruct n as [|pn|pn] eqn:En; [lia| |lia]. cbn [shr].
  destruct (iter_shr_1 pn (Z.pos m) false false) as [Em Er]; [lia|].
  destruct (SpecFloat.iter_pos shr_1 pn _) as [q r s] eqn:Eit.
  cbn [shr_m shr_r] in Em, Er.
  pose proof (round_nearest_even_range q (loc_of_shr_record (Build_shr_record q r s))) as Hr.
  pose proof (round_nearest_even_low (Build_shr_record q r s)) as Hlow.
  cbn [shr_m shr_r] in Hr, Hlow |- *.
  destruct (round_nearest_even q _) as [|m1|m1] eqn:Ern; [lia| |lia].
  exists m1. rewrite <- Em. split; [lia|]. split; [lia|].
  split; [intros Hodd; apply Hlow; congruence|].
  cbn [Zdigits2 shr_record_of_loc].
  destruct (Z.ltb_spec (Z.pos m1) (2 ^ 53)) as [Hlt|Hge].
  - rewrite (digits2_pos_unique m1 53) by (simpl (53 - 1); lia).
    rewrite shr_nonpos by lia. cbn [shr_m]. reflexivity.
  - assert (E53 : Z.pos m1 = 2 ^ 53) by lia.
    assert (m1 = (2 ^ 53)%positive) as -> by (apply Pos2Z.inj; exact E53).
    replace (Z.max _ _ - _) with 1.
    2:{ change (Z.pos (digits2_pos (2 ^ 53))) with 54. lia. }
    cbn [shr SpecFloat.iter_pos].
    change (shr_m (shr_1 _)) with (Z.pos (2 ^ 52)).
    cbv iota beta. reflexivity.
Qed.

Lemma iter_xO_pow (k p : positive) : Z.pos (Pos.iter xO p k) = Z.pos p * 2 ^ Z.pos k.
Proof.
  induction k as [|k IH] using Pos.peano_ind.
  - cbn [Pos.iter]. change (Z.pos p~0) with (2 * Z.pos p). change (2 ^ 1) with 2. lia.
  - rewrite Pos.iter_succ, Pos2Z.inj_succ, Z.pow_succ_r by lia.
    change (Z.pos (Pos.iter xO p k)~0) with (2 * Z.pos (Pos.iter xO p k)). lia.
Qed.

Lemma trunc_float_pos m e :
  trunc_float (S754_finite false m e)
  = Some (if e <? 0 then Z.pos m / 2 ^ (- e) else Z.pos m * 2 ^ e).
Proof. destruct e; reflexivity. Qed.

(** The conversion of a positive [int] below the overflow threshold: a
    normalised double, exact up to 53 bits and at most twice the integer
    beyond. *)
Lemma float_of_int_pos (p : positive) :
  Z.pos p < overflow_threshold →
  ∃ ms es,
    float_of_int (Z.pos p) = Some (S754_finite false ms es)
    ∧ 2 ^ 52 ≤ Z.pos ms < 2 ^ 53
    ∧ -52 ≤ es ≤ 971
    ∧ (es ≤ 0 → Z.pos ms = Z.pos p * 2 ^ (- es))
    ∧ (0 < es → Z.pos ms * 2 ^ es ≤ 2 * Z.pos p).
Proof.
  intros Hp. unfold float_of_int.
  destruct (Z.ltb_spec (Z.abs (Z.pos p)) overflow_threshold) as [_|]; [|lia].
  cbn [binary_normalize]. unfold binary_round, fexp, emin.
  pose proof (digits2_pos_bounds p) as [Dlo Dhi].
  set (d := Z.pos (digits2_pos p)) in *.
  assert (Hd1 : 1 ≤ d) by (subst d; lia).
  assert (Hd2 : d ≤ 1024).
  { assert (d - 1 < 1024); [|lia]. apply pow2_lt_mono; [lia|].
    unfold overflow_threshold in Hp.
    assert (2 ^ 1024 - 2 ^ 970 < 2 ^ 1024) by (vm_compute; reflexivity). lia. }
  replace (Z.max (d + 0 - prec) (3 - emax - prec)) with (d - 53)
    by (unfold prec, emax; lia).
  unfold shl_align.
  destruct (d - 53 - 0) as [|k|k] eqn:Ek.
  - (* exactly 53 bits *)
    rewrite binary_round_aux_exact by (fold d; lia).
    exists p, 0. cbn. replace (d - 1) with 52 in Dlo by lia.
    replace d with 53 in Dhi by lia.
    split; [reflexivity|]. split; [lia|]. split; [lia|]. split; [lia|lia].
  - (* more than 53 bits: rounded *)
    destruct (binary_round_aux_round p 0) as (m1 & Hm1 & Hq & Hlow & ->);
      [fold d; lia..|]. fold d in Hm1, Hq, Hlow |- *.
    set (n := d - 53) in *.
    assert (Hn : 1 ≤ n ≤ 971) by lia.
    assert (Hpow : 0 < 2 ^ n) by (apply Z.pow_pos_nonneg; lia).
    assert (Hqs : Z.pos p / 2 ^ n * 2 ^ n ≤ Z.pos p).
    { pose proof (Z.mul_div_le (Z.pos p) (2 ^ n) Hpow). lia. }
    destruct (Z.ltb_spec (Z.pos m1) (2 ^ 53)) as [Hlt|Hge].
    + destruct (Z.leb_spec (0 + n) 971); [|lia].
      exists m1, (0 + n). split; [reflexivity|]. split; [lia|].
      split; [lia|]. split; [lia|]. intros _. rewrite Z.add_0_l.
      assert (Z.pos m1 * 2 ^ n ≤ (Z.pos p / 2 ^ n + Z.pos p / 2 ^ n) * 2 ^ n)
        by (apply Z.mul_le_mono_nonneg_r; [lia|]; change (2 ^ 52) with 4503599627370496 in *; lia).
      lia.
    + assert (Hn970 : n ≤ 970).
      { destruct (Z.eq_dec n 971) as [E971|]; [|lia]. exfalso.
        assert (Hq1 : Z.pos p / 2 ^ n = 2 ^ 53 - 1) by lia.
        assert (He : Z.pos p / 2 ^ (n - 1) = 2 ^ 54 - 2).
        { rewrite E971 in *. simpl (971 - 1).
          symmetry. apply (Z.div_unique_pos _ _ _ (Z.pos p - (2 ^ 54 - 2) * 2 ^ 970)); [|lia].
          unfold overflow_threshold in Hp.
          assert ((2 ^ 54 - 2) * 2 ^ 970 = (2 ^ 53 - 1) * 2 ^ 971) by (vm_compute; reflexivity).
          assert (2 ^ 1024 - 2 ^ 970 = (2 ^ 54 - 2) * 2 ^ 970 + 2 ^ 970) by (vm_compute; reflexivity).
          assert (0 < 2 ^ 970) by (vm_compute; reflexivity).
          lia. }
        rewrite He in Hlow. specialize (Hlow eq_refl). lia. }
      destruct (Z.leb_spec (0 + n + 1) 971); [|lia].
      exists (2 ^ 52)%positive, (0 + n + 1).
      split; [reflexivity|]. split; [split; vm_compute; congruence|].
      split; [lia|]. split; [lia|]. intros _.
      replace (0 + n + 1) with (Z.succ n) by lia. rewrite Z.pow_succ_r by lia.
      change (Z.pos (2 ^ 52)) with (2 ^ 52).
      assert (2 ^ 52 * 2 ≤ Z.pos p / 2 ^ n + Z.pos p / 2 ^ n)
        by (change (2 ^ 53) with 9007199254740992 in *;
            change (2 ^ 52) with 4503599627370496 in *; lia).
      assert (2 ^ 52 * 2 * 2 ^ n ≤ (Z.pos p / 2 ^ n + Z.pos p / 2 ^ n) * 2 ^ n)
        by (apply Z.mul_le_mono_nonneg_r; lia).
      lia.
  - (* fewer than 53 bits: shifted left, exact *)
    assert (Hk : Z.pos k = 53 - d) by lia.
    assert (Hms : 2 ^ 52 ≤ Z.pos (Pos.iter xO p k) < 2 ^ 53).
    { rewrite iter_xO_pow, Hk.
      assert (E52 : 2 ^ 52 = 2 ^ (d - 1) * 2 ^ (53 - d))
        by (rewrite <- Z.pow_add_r by lia; f_equal; lia).
      assert (E53 : 2 ^ 53 = 2 ^ d * 2 ^ (53 - d))
        by (rewrite <- Z.pow_add_r by lia; f_equal; lia).
      assert (0 < 2 ^ (53 - d)) by (apply Z.pow_pos_nonneg; lia).
      rewrite E52, E53. nia. }
    rewrite binary_round_aux_exact.
    2:{ rewrite (digits2_pos_unique _ 53) by (simpl (53 - 1); lia). lia. }
    2:{ lia. }
    destruct (Z.leb_spec (d - 53) 971); [|lia].
    exists (Pos.iter xO p k), (d - 53).
    split; [reflexivity|]. split; [lia|]. split; [lia|].
    split; [|lia]. intros _. rewrite iter_xO_pow, Hk. f_equal. f_equal. lia.
Qed.

(** The product of two normalised doubles, truncated: the truncation of
    a 53-bit mantissa [mr] that is the exact 106-bit product shifted
    right, or one more. *)
Lemma mul_trunc (ms M : positive) (es E : Z) :
  2 ^ 52 ≤ Z.pos ms < 2 ^ 53 → 2 ^ 52 ≤ Z.pos M < 2 ^ 53 →
  -1074 ≤ es + E + 52 → es + E + 54 ≤ 971 →
  ∃ mr n,
    52 ≤ n ≤ 53
    ∧ Z.pos ms * Z.pos M / 2 ^ n ≤ mr ≤ Z.pos ms * Z.pos M / 2 ^ n + 1
    ∧ 2 ^ 52 ≤ Z.pos ms * Z.pos M / 2 ^ n < 2 ^ 53
    ∧ trunc_float (SFmul prec emax (S754_finite false ms es) (S754_finite false M E))
      = Some (if es + E + n <? 0 then mr / 2 ^ (- (es + E + n))
              else mr * 2 ^ (es + E + n)).
Proof.
  intros Hms HM Hlo Hhi. cbn [SFmul xorb].
  pose proof (digits2_pos_bounds (ms * M)) as [Dlo Dhi].
  rewrite Pos2Z.inj_mul in Dlo, Dhi.
  set (P := Z.pos ms * Z.pos M) in *.
  assert (HP : 2 ^ 104 ≤ P < 2 ^ 106).
  { change (2 ^ 104) with (2 ^ 52 * 2 ^ 52). change (2 ^ 106) with (2 ^ 53 * 2 ^ 53).
    subst P. split; [apply Z.mul_le_mono_nonneg; lia|].
    apply Z.mul_lt_mono_nonneg; lia. }
  assert (Hd : 105 ≤ Z.pos (digits2_pos (ms * M)) ≤ 106).
  { split.
    - assert (104 < Z.pos (digits2_pos (ms * M))); [|lia].
      apply pow2_lt_mono; lia.
    - assert (Z.pos (digits2_pos (ms * M)) - 1 < 106); [|lia].
      apply pow2_lt_mono; lia. }
  destruct (binary_round_aux_round (ms * M) (es + E))
    as (m1 & Hm1 & Hq & _ & ->); [lia..|].
  rewrite Pos2Z.inj_mul in Hm1, Hq. fold P in Hm1, Hq.
  set (n := Z.pos (digits2_pos (ms * M)) - 53) in *.
  exists (Z.pos m1), n. split; [lia|]. split; [lia|]. split; [lia|].
  destruct (Z.ltb_spec (Z.pos m1) (2 ^ 53)) as [Hlt|Hge].
  - destruct (Z.leb_spec (es + E + n) 971); [|lia].
    apply trunc_float_pos.
  - destruct (Z.leb_spec (es + E + n + 1) 971); [|lia].
    rewrite trunc_float_pos. f_equal.
    assert (E53 : Z.pos m1 = 2 ^ 53) by lia. rewrite E53.
    change (Z.pos (2 ^ 52)) with (2 ^ 52).
    set (e1 := es + E + n).
    destruct (Z.ltb_spec (e1 + 1) 0) as [H1|H1];
      destruct (Z.ltb_spec e1 0) as [H0|H0]; try lia.
    + change (2 ^ 53) with (2 ^ 52 * 2).
      replace (- e1) with (Z.succ (- (e1 + 1))) by lia.
      rewrite Z.pow_succ_r by lia.
      rewrite (Z.mul_comm 2 (2 ^ _)).
      rewrite Z.div_mul_cancel_r; [reflexivity| |lia].
      pose proof (Z.pow_pos_nonneg 2 (- (e1 + 1))). lia.
    + replace e1 with (-1) by lia. reflexivity.
    + replace (e1 + 1) with (Z.succ e1) by lia. rewrite Z.pow_succ_r by lia.
      change (2 ^ 53) with (2 ^ 52 * 2). lia.
Qed.

Lemma int_times_float s c :
  int_ (Zi s *' Fl c) = f ← float_of_int s; trunc_float (SFmul prec emax f c).
Proof.
  unfold int_, lift2, Zi, Fl. cbn [mbind option_bind py_mul to_float].
  destruct (float_of_int s); reflexivity.
Qed.

(** [int(s * c)] for a positive [int] and a normalised double constant
    below one half. *)
Lemma int_times_const (p M : positive) (E : Z) :
  Z.pos p < overflow_threshold →
  2 ^ 52 ≤ Z.pos M < 2 ^ 53 → -1022 ≤ E ≤ -54 →
  ∃ ms es mr n,
    (2 ^ 52 ≤ Z.pos ms < 2 ^ 53
     ∧ -52 ≤ es ≤ 971
     ∧ (es ≤ 0 → Z.pos ms = Z.pos p * 2 ^ (- es))
     ∧ (0 < es → Z.pos ms * 2 ^ es ≤ 2 * Z.pos p))
    ∧ 52 ≤ n ≤ 53
    ∧ Z.pos ms * Z.pos M / 2 ^ n ≤ mr ≤ Z.pos ms * Z.pos M / 2 ^ n + 1
    ∧ 2 ^ 52 ≤ Z.pos ms * Z.pos M / 2 ^ n < 2 ^ 53
    ∧ int_ (Zi (Z.pos p) *' Fl (S754_finite false M E))
      = Some (if es + E + n <? 0 then mr / 2 ^ (- (es + E + n))
              else mr * 2 ^ (es + E + n)).
Proof.
  intros Hp HM HE.
  destruct (float_of_int_pos p Hp) as (ms & es & Ef & Hms & Hes & Hex & Hrd).
  destruct (mul_trunc ms M es E Hms HM) as (mr & n & Hn & Hmr & Hq & Et); [lia..|].
  exists ms, es, mr, n. split; [tauto|].
  do 3 (split; [assumption|]).
  rewrite int_times_float, Ef. exact Et.
Qed.

Lemma int_times_const_coarse (p M : positive) (E : Z) :
  Z.pos p < overflow_threshold →
  2 ^ 52 ≤ Z.pos M < 2 ^ 53 → -1022 ≤ E ≤ -54 →
  ∃ T, int_ (Zi (Z.pos p) *' Fl (S754_finite false M E)) = Some T
       ∧ 0 ≤ T ∧ T * 2 ^ (- E) ≤ 4 * Z.pos M * Z.pos p.
Proof.
  intros Hp HM HE.
  destruct (int_times_const p M E Hp HM HE)
    as (ms & es & mr & n & (Hms & Hes & Hex & Hrd) & Hn & Hmr & Hq & ->).
  eexists. split; [reflexivity|].
  set (P := Z.pos ms * Z.pos M) in *.
  assert (HB : 0 < 2 ^ n) by (apply Z.pow_pos_nonneg; lia).
  assert (HqB : P / 2 ^ n * 2 ^ n ≤ P).
  { pose proof (Z.mul_div_le P (2 ^ n) HB). lia. }
  assert (F1 : mr * 2 ^ n ≤ 2 * P).
  { assert (mr * 2 ^ n ≤ (P / 2 ^ n + P / 2 ^ n) * 2 ^ n); [|lia].
    apply Z.mul_le_mono_nonneg_r; [lia|].
    change (2 ^ 52) with 4503599627370496 in *. lia. }
  assert (Hmr0 : 0 < mr) by (change (2 ^ 52) with 4503599627370496 in *; lia).
  assert (HK : 0 < 2 ^ (- E)) by (apply Z.pow_pos_nonneg; lia).
  set (e1 := es + E + n) in *.
  destruct (Z.ltb_spec e1 0) as [He1|He1].
  - (* the product is below 2^53: a real truncation *)
    assert (HC : 0 < 2 ^ (- e1)) by (apply Z.pow_pos_nonneg; lia).
    assert (HT : mr / 2 ^ (- e1) * 2 ^ (- e1) ≤ mr).
    { pose proof (Z.mul_div_le mr (2 ^ (- e1)) HC). lia. }
    assert (HT0 : 0 ≤ mr / 2 ^ (- e1)) by (apply Z.div_pos; lia).
    split; [exact HT0|].
    set (T := mr / 2 ^ (- e1)) in *.
    destruct (Z.le_gt_cases es 0) as [Hex0|Hrd0].
    + specialize (Hex Hex0).
      assert (HA : 0 < 2 ^ (- es)) by (apply Z.pow_pos_nonneg; lia).
      assert (Epow : 2 ^ (- e1) * 2 ^ n = 2 ^ (- es) * 2 ^ (- E)).
      { rewrite <- !Z.pow_add_r by lia. f_equal. lia. }
      assert (T * 2 ^ (- e1) * 2 ^ n ≤ mr * 2 ^ n)
        by (apply Z.mul_le_mono_nonneg_r; lia).
      assert (H2 : T * 2 ^ (- E) * 2 ^ (- es) ≤ 2 * (Z.pos p * Z.pos M) * 2 ^ (- es)).
      { subst P. rewrite Hex in F1. 
        replace (T * 2 ^ (- E) * 2 ^ (- es)) with (T * (2 ^ (- e1) * 2 ^ n))
          by (rewrite Epow; ring).
        lia. }
      apply Z.mul_le_mono_pos_r in H2; [|exact HA]. lia.
    + specialize (Hrd Hrd0).
      assert (HA : 0 < 2 ^ es) by (apply Z.pow_pos_nonneg; lia).
      assert (Epow : 2 ^ (- e1) * 2 ^ n * 2 ^ es = 2 ^ (- E)).
      { rewrite <- !Z.pow_add_r by lia. f_equal. lia. }
      assert (T * 2 ^ (- e1) * (2 ^ n * 2 ^ es) ≤ mr * (2 ^ n * 2 ^ es))
        by (apply Z.mul_le_mono_nonneg_r; lia).
      assert (mr * 2 ^ n * 2 ^ es ≤ 2 * P * 2 ^ es)
        by (apply Z.mul_le_mono_nonneg_r; lia).
      assert (Z.pos ms * 2 ^ es * Z.pos M ≤ 2 * Z.pos p * Z.pos M)
        by (apply Z.mul_le_mono_nonneg_r; lia).
      rewrite <- Epow. subst P. lia.
  - (* the product is an integer already *)
    assert (Hrd0 : 0 < es) by lia. specialize (Hrd Hrd0).
    assert (HA : 0 < 2 ^ es) by (apply Z.pow_pos_nonneg; lia).
    assert (HC : 0 < 2 ^ e1) by (apply Z.pow_pos_nonneg; lia).
    split; [lia|].
    assert (Epow : 2 ^ e1 * 2 ^ (- E) = 2 ^ n * 2 ^ es).
    { rewrite <- !Z.pow_add_r by lia. f_equal. lia. }
    assert (mr * 2 ^ n * 2 ^ es ≤ 2 * P * 2 ^ es)
      by (apply Z.mul_le_mono_nonneg_r; lia).
    assert (Z.pos ms * 2 ^ es * Z.pos M ≤ 2 * Z.pos p * Z.pos M)
      by (apply Z.mul_le_mono_nonneg_r; lia).
    replace (mr * 2 ^ e1 * 2 ^ (- E)) with (mr * (2 ^ e1 * 2 ^ (- E))) by ring.
    rewrite Epow. subst P. lia.
Qed.

(** The arithmetic behind an exact truncation: [M/K] is the constant,
    at least [pn/qd] and above it by [δ/(qd·K)]; [mr/C] is the rounded
    product. *)
Lemma floor_core s M pn qd K A B C mr δ :
  0 < s → 0 < qd → 0 ≤ pn → 0 < A → 0 < B → 0 < C → 0 < K →
  C * B = A * K → qd * M = pn * K + δ → 0 ≤ δ →
  s * δ * A + qd * B < K * A →
  s * A * M / B ≤ mr ≤ s * A * M / B + 1 →
  mr / C = pn * s / qd.
Proof.
  intros Hs Hqd Hpn HA HB HC HK Epow EM Hδ Hsmall Hmr.
  set (t := pn * s / qd).
  assert (Ht1 : qd * t ≤ pn * s) by (apply Z.mul_div_le; lia).
  assert (Ht2 : pn * s < qd * Z.succ t) by (apply Z.mul_succ_div_gt; lia).
  assert (Ht0 : 0 ≤ t) by (apply Z.div_pos; nia).
  assert (Hlo : t * C ≤ s * A * M / B).
  { apply Z.div_le_lower_bound; [lia|].
    replace (B * (t * C)) with (t * (C * B)) by ring. rewrite Epow.
    assert (H1 : qd * t * K ≤ pn * s * K) by (apply Z.mul_le_mono_nonneg_r; lia).
    assert (H2 : t * K ≤ s * M).
    { apply (Z.mul_le_mono_pos_l _ _ qd); [lia|].
      replace (qd * (s * M)) with (s * (qd * M)) by ring. rewrite EM. nia. }
    replace (t * (A * K)) with (t * K * A) by ring.
    replace (s * A * M) with (s * M * A) by ring.
    apply Z.mul_le_mono_nonneg_r; lia. }
  assert (Hhi : s * A * M / B < (t + 1) * C - 1).
  { apply Z.div_lt_upper_bound; [lia|].
    replace (B * ((t + 1) * C - 1)) with ((t + 1) * (C * B) - B) by ring.
    rewrite Epow.
    assert (H1 : qd * (s * A * M) + qd * B < qd * ((t + 1) * (A * K))).
    { replace (qd * (s * A * M)) with (s * A * (qd * M)) by ring. rewrite EM.
      assert (H3 : (pn * s + 1) * (A * K) ≤ qd * (t + 1) * (A * K))
        by (apply Z.mul_le_mono_nonneg_r; nia).
      nia. }
    nia. }
  symmetry. apply (Z.div_unique_pos mr C t (mr - t * C)); lia.
Qed.

(** [int(s * c)] is the exact floor of [s·pn/qd] when the double [c] is
    the nearest one to [pn/qd] from above and [s] has at most 48 bits. *)
Lemma int_times_const_exact (p M : positive) (E pn qd δ : Z) :
  Z.pos p < 2 ^ 48 →
  2 ^ 52 ≤ Z.pos M < 2 ^ 53 → -1022 ≤ E ≤ -55 →
  0 < qd ≤ 50 → 0 ≤ pn →
  qd * Z.pos M = pn * 2 ^ (- E) + δ → 0 ≤ δ ≤ 3 →
  int_ (Zi (Z.pos p) *' Fl (S754_finite false M E)) = Some (pn * Z.pos p / qd).
Proof.
  intros Hp HM HE Hqd Hpn EM Hδ.
  assert (Hthr : Z.pos p < overflow_threshold).
  { assert (2 ^ 48 < overflow_threshold) by (vm_compute; reflexivity). lia. }
  destruct (int_times_const p M E Hthr HM ltac:(lia))
    as (ms & es & mr & n & (Hms & Hes & Hex & Hrd) & Hn & Hmr & Hq & ->).
  assert (H52 : 2 ^ 52 = 4503599627370496) by reflexivity.
  assert (H53 : 2 ^ 53 = 9007199254740992) by reflexivity.
  assert (H48 : 2 ^ 48 = 281474976710656) by reflexivity.
  assert (Hes0 : es ≤ 0).
  { destruct (Z.le_gt_cases es 0) as [|Hpos]; [assumption|exfalso].
    specialize (Hrd Hpos).
    assert (2 ^ 1 ≤ 2 ^ es) by (apply Z.pow_le_mono_r; lia).
    change (2 ^ 1) with 2 in *.
    assert (Z.pos ms * 2 ≤ Z.pos ms * 2 ^ es) by (apply Z.mul_le_mono_nonneg_l; lia).
    lia. }
  specialize (Hex Hes0).
  destruct (Z.ltb_spec (es + E + n) 0) as [_|]; [|lia]. f_equal.
  assert (HA : 0 < 2 ^ (- es)) by (apply Z.pow_pos_nonneg; lia).
  assert (HB : 0 < 2 ^ n) by (apply Z.pow_pos_nonneg; lia).
  assert (HK : 2 ^ 55 ≤ 2 ^ (- E)) by (apply Z.pow_le_mono_r; lia).
  assert (HBu : 2 ^ n ≤ 2 ^ 53) by (apply Z.pow_le_mono_r; lia).
  assert (H55 : 2 ^ 55 = 36028797018963968) by reflexivity.
  assert (HA17 : 17 ≤ 2 ^ (- es)) by nia.
  assert (HC : 0 < 2 ^ (- (es + E + n))) by (apply Z.pow_pos_nonneg; lia).
  assert (Epow : 2 ^ (- (es + E + n)) * 2 ^ n = 2 ^ (- es) * 2 ^ (- E)).
  { rewrite <- !Z.pow_add_r by lia. f_equal. lia. }
  assert (Hsmall : Z.pos p * δ * 2 ^ (- es) + qd * 2 ^ n < 2 ^ (- E) * 2 ^ (- es)).
  { assert (Z.pos p * δ * 2 ^ (- es) ≤ 3 * Z.pos ms) by nia.
    assert (qd * 2 ^ n ≤ 50 * 2 ^ 53) by nia.
    assert (2 ^ 55 * 17 ≤ 2 ^ (- E) * 2 ^ (- es)) by (apply Z.mul_le_mono_nonneg; lia).
    lia. }
  apply (floor_core (Z.pos p) (Z.pos M) pn qd (2 ^ (- E)) (2 ^ (- es)) (2 ^ n)
           (2 ^ (- (es + E + n))) mr δ);
    [lia | lia | lia | exact HA | exact HB | exact HC | lia | exact Epow
    | exact EM | lia | exact Hsmall | rewrite <- Hex; exact Hmr].
Qed.

(** ** The page geometry at every size *)

Lemma f0_08_value : f0_08 = S754_finite false 5764607523034235 (-56).
Proof. reflexivity. Qed.

Lemma f0_22_value : f0_22 = S754_finite false 7926335344172073 (-55).
Proof. reflexivity. Qed.

Lemma f0_02_value : f0_02 = S754_finite false 5764607523034235 (-58).
Proof. reflexivity. Qed.

Lemma page_margin_exact s :
  0 < s < 2 ^ 48 → page_margin s = Some (Z.max 1 (8 * s / 100)).
Proof.
  intros [H0 H1]. destruct s as [|p|p]; try lia.
  unfold page_margin, max_. rewrite f0_08_value.
  rewrite (int_times_const_exact p _ _ 2 25 3);
    [ | lia | split; vm_compute; congruence | lia | lia | lia | reflexivity | lia ].
  cbn [fmap option_fmap option_map]. do 2 f_equal.
  replace (8 * Z.pos p) with (2 * Z.pos p * 4) by lia.
  change 100 with (25 * 4). rewrite Z.div_mul_cancel_r; lia.
Qed.

Lemma page_fold_exact s :
  0 < s < 2 ^ 48 → page_fold s (PFloat f0_22) = Some (Z.max 2 (22 * s / 100)).
Proof.
  intros [H0 H1]. destruct s as [|p|p]; try lia.
  unfold page_fold, max_. rewrite f0_22_value.
  change (Some (PFloat (S754_finite false 7926335344172073 (-55))))
    with (Fl (S754_finite false 7926335344172073 (-55))).
  rewrite (int_times_const_exact p _ _ 11 50 2);
    [ | lia | split; vm_compute; congruence | lia | lia | lia | reflexivity | lia ].
  cbn [fmap option_fmap option_map]. do 2 f_equal.
  replace (22 * Z.pos p) with (11 * Z.pos p * 2) by lia.
  change 100 with (50 * 2). rewrite Z.div_mul_cancel_r; lia.
Qed.

Lemma float_of_int_overflow s :
  overflow_threshold ≤ s → float_of_int s = None.
Proof.
  intros H. unfold float_of_int.
  destruct (Z.ltb_spec (Z.abs s) overflow_threshold); [lia|reflexivity].
Qed.

(** A size-proportional offset is computed for every positive size
    whose conversion to [float] does not overflow. *)
Lemma scaled_offset_total lo s (M : positive) E :
  0 < s < overflow_threshold →
  2 ^ 52 ≤ Z.pos M < 2 ^ 53 → -1022 ≤ E ≤ -54 →
  ∃ T, max_ lo (int_ (Zi s *' Fl (S754_finite false M E))) = Some (Z.max lo T)
       ∧ 0 ≤ T ∧ T * 2 ^ (- E) ≤ 4 * Z.pos M * s.
Proof.
  intros [H0 H1] HM HE. destruct s as [|p|p]; try lia.
  destruct (int_times_const_coarse p M E H1 HM HE) as (T & ET & HT).
  exists T. rewrite ET. split; [reflexivity|exact HT].
Qed.

Lemma page_margin_bound s m :
  16 ≤ s → page_margin s = Some m → 1 ≤ m ∧ 2 * m < s - 1.
Proof.
  intros Hs. unfold page_margin. rewrite f0_08_value.
  destruct (Z.lt_ge_cases s overflow_threshold) as [Hlt|Hge].
  - destruct (scaled_offset_total 1 s 5764607523034235 (-56))
      as (T & -> & HT0 & HT); [lia|split; vm_compute; congruence|lia|].
    intros [= <-]. change (2 ^ (- -56)) with 72057594037927936 in HT. lia.
  - rewrite int_times_float, (float_of_int_overflow s Hge). discriminate.
Qed.

Lemma max_at_least lo (x : option Z) v : max_ lo x = Some v → lo ≤ v.
Proof. destruct x; intros [= <-]. lia. Qed.

(** C2, as stated, fails: the script truncates, it does not round. At
    32 pixels the margin is 2 where rounding 2.56 gives 3; at 16 pixels
    the fold is 3 where rounding 3.52 gives 4. *)
Lemma margin_and_fold_not_rounded :
  page_margin 32 = Some 2 ∧ spec_margin 32 = 3
  ∧ page_fold 16 (PFloat f0_22) = Some 3 ∧ spec_fold 16 = 4.
Proof. repeat split; vm_compute; reflexivity. Qed.

(** C2, amended. For every canvas size [s] with [0 < s < 2^48], the
    margin is [max(1, ⌊0.08·s⌋)] and, at the default fold ratio 0.22, the
    fold is [max(2, ⌊0.22·s⌋)]: the proportional value is truncated
    toward zero, not rounded. For any other fold ratio the fold is 2 or
    the truncated binary64 product of the size and the ratio, whichever
    is larger. *)
Theorem margin_and_fold_truncate s :
  0 < s < 2 ^ 48 →
  page_margin s = Some (Z.max 1 (8 * s / 100))
  ∧ page_fold s (PFloat f0_22) = Some (Z.max 2 (22 * s / 100))
  ∧ ∀ fr : spec_float,
      page_fold s (PFloat fr)
      = Z.max 2 <$> (f ← float_of_int s; trunc_float (SFmul prec emax f fr)).
Proof.
  intros Hs. split; [by apply page_margin_exact|].
  split; [by apply page_fold_exact|].
  intros fr. unfold page_fold, max_.
  change (Some (PFloat fr)) with (Fl fr). by rewrite int_times_float.
Qed.

Lemma margin_and_fold_truncate_witness :
  page_margin 32 = Some (Z.max 1 (8 * 32 / 100))
  ∧ page_fold 32 (PFloat f0_22) = Some (Z.max 2 (22 * 32 / 100))
  ∧ ∀ fr : spec_float,
      page_fold 32 (PFloat fr)
      = Z.max 2 <$> (f ← float_of_int 32; trunc_float (SFmul prec emax f fr)).
Proof. apply (margin_and_fold_truncate 32). split; reflexivity. Defined.

(** C6. For every integer canvas size [s ≥ 16] and every fold ratio, the
    page geometry the Shape Renderer computes has a margin of at least
    1, a fold of at least 2, and [page_right > page_left],
    [page_bottom > page_top]; at the default fold ratio it is computed
    for every such size that converts to a [float]. *)
Theorem page_geometry_never_degenerate s fr :
  16 ≤ s →
  (∀ pl pt pr pb fold,
      page_geometry s fr = Some (pl, pt, pr, pb, fold) →
      page_margin s = Some pl ∧ 1 ≤ pl ∧ 2 ≤ fold ∧ pl < pr ∧ pt < pb)
  ∧ (s < overflow_threshold → is_Some (page_geometry s (PFloat f0_22))).
Proof.
  intros Hs. split.
  - intros pl pt pr pb fold. unfold page_geometry.
    destruct (page_margin s) as [m|] eqn:Em; cbn [mbind option_bind]; [|discriminate].
    destruct (page_fold s fr) as [f|] eqn:Ef; cbn [mbind option_bind]; [|discriminate].
    intros [= <- <- <- <- <-].
    destruct (page_margin_bound s m Hs Em) as [Hm1 Hm2].
    pose proof (max_at_least _ _ _ Ef). repeat split; lia.
  - intros Hlt. unfold page_geometry, page_margin, page_fold.
    rewrite f0_08_value, f0_22_value.
    change (Some (PFloat (S754_finite false 7926335344172073 (-55))))
      with (Fl (S754_finite false 7926335344172073 (-55))).
    destruct (scaled_offset_total 1 s 5764607523034235 (-56))
      as (T1 & -> & _); [lia|split; vm_compute; congruence|lia|].
    destruct (scaled_offset_total 2 s 7926335344172073 (-55))
      as (T2 & -> & _); [lia|split; vm_compute; congruence|lia|].
    cbn [mbind option_bind]. eauto.
Qed.

Lemma page_geometry_never_degenerate_witness :
  page_margin 16 = Some 1 ∧ 1 ≤ 1 ∧ 2 ≤ 3 ∧ 1 < 14 ∧ 1 < 14.
Proof.
  apply (proj1 (page_geometry_never_degenerate 16 (PFloat f0_22) ltac:(lia))
           1 1 14 14 3).
  reflexivity.
Defined.

Section PageRectangle.
Context {font : Type}.

(** C10. Whatever the canvas size, the rectangle the Shape Renderer
    returns is a square placed symmetrically in the canvas:
    [page_left = page_top = margin] and
    [page_right = page_bottom = s - margin - 1], so that its width equals
    its height; and the renderer does return, for every positive size
    that converts to a [float]. *)
Theorem page_rectangle_is_centered_square (draw : @image font) s :
  (∀ fr draw' pl pt pr pb fold,
      draw_document_page draw s fr = Some (draw', (pl, pt, pr, pb, fold)) →
      ∃ margin,
        page_margin s = Some margin
        ∧ pl = margin ∧ pt = margin
        ∧ pr = s - margin - 1 ∧ pb = s - margin - 1
        ∧ pr - pl = pb - pt)
  ∧ (0 < s < overflow_threshold →
     is_Some (draw_document_page draw s (PFloat f0_22))).
Proof.
  split.
  - intros fr draw' pl pt pr pb fold. unfold draw_document_page, page_geometry.
    destruct (page_margin s) as [m|]; cbn [mbind option_bind]; [|discriminate].
    destruct (page_fold s fr) as [f|]; cbn [mbind option_bind]; [|discriminate].
    destruct (if 32 <=? s then _ else _) as [d|]; cbn [mbind option_bind];
      [|discriminate].
    intros [= _ <- <- <- <- _]. exists m. repeat split; lia.
  - intros Hs. unfold draw_document_page, page_geometry, page_margin, page_fold.
    rewrite f0_08_value, f0_22_value.
    change (Some (PFloat (S754_finite false 7926335344172073 (-55))))
      with (Fl (S754_finite false 7926335344172073 (-55))).
    destruct (scaled_offset_total 1 s 5764607523034235 (-56))
      as (T1 & -> & _); [lia|split; vm_compute; congruence|lia|].
    destruct (scaled_offset_total 2 s 7926335344172073 (-55))
      as (T2 & -> & _); [lia|split; vm_compute; congruence|lia|].
    cbn [mbind option_bind].
    destruct (32 <=? s).
    + unfold shadow_offset. rewrite f0_02_value.
      destruct (scaled_offset_total 1 s 5764607523034235 (-58))
        as (T3 & -> & _); [lia|split; vm_compute; congruence|lia|].
      cbn [mbind option_bind]. eauto.
    + cbn [mbind option_bind]. eauto.
Qed.

End PageRectangle.

Lemma page_rectangle_is_centered_square_witness :
  ∃ margin,
    page_margin 256 = Some margin
    ∧ 20 = margin ∧ 20 = margin
    ∧ 235 = 256 - margin - 1 ∧ 235 = 256 - margin - 1
    ∧ 235 - 20 = 235 - 20.
Proof.
  refine (proj1 (page_rectangle_is_centered_square
                   (Image_new (font := NoFonts.font) "RGBA" (256, 256) (0, 0, 0, 0))
                   256)
            (PFloat f0_22) _ 20 20 235 235 56 _).
  vm_compute. reflexivity.
Defined.

(** * Further properties of the script *)

(** ** Every proportional offset, at every size *)

(** [int(s * c)] is the exact floor of [s·pn/qd] when the double [c]
    lies above [pn/qd] by [δ/(qd·2^-E)], a small [δ], and [s] has at
    most 48 bits. *)
Lemma int_times_const_floor (p M : positive) (E pn qd δ : Z) :
  Z.pos p < 2 ^ 48 →
  2 ^ 52 ≤ Z.pos M < 2 ^ 53 → -1022 ≤ E ≤ -54 →
  0 < qd → 0 ≤ pn →
  qd * Z.pos M = pn * 2 ^ (- E) + δ → 0 ≤ δ →
  (δ + qd) * 2 ^ 53 < 17 * 2 ^ (- E) →
  int_ (Zi (Z.pos p) *' Fl (S754_finite false M E)) = Some (pn * Z.pos p / qd).
Proof.
  intros Hp HM HE Hqd Hpn EM Hδ Hroom.
  assert (Hthr : Z.pos p < overflow_threshold).
  { assert (2 ^ 48 < overflow_threshold) by (vm_compute; reflexivity). lia. }
  destruct (int_times_const p M E Hthr HM ltac:(lia))
    as (ms & es & mr & n & (Hms & Hes & Hex & Hrd) & Hn & Hmr & Hq & ->).
  assert (H52 : 2 ^ 52 = 4503599627370496) by reflexivity.
  assert (H53 : 2 ^ 53 = 9007199254740992) by reflexivity.
  assert (H48 : 2 ^ 48 = 281474976710656) by reflexivity.
  assert (Hes0 : es ≤ 0).
  { destruct (Z.le_gt_cases es 0) as [|Hpos]; [assumption|exfalso].
    specialize (Hrd Hpos).
    assert (2 ^ 1 ≤ 2 ^ es) by (apply Z.pow_le_mono_r; lia).
    change (2 ^ 1) with 2 in *.
    assert (Z.pos ms * 2 ≤ Z.pos ms * 2 ^ es) by (apply Z.mul_le_mono_nonneg_l; lia).
    lia. }
  specialize (Hex Hes0).
  destruct (Z.ltb_spec (es + E + n) 0) as [_|]; [|lia]. f_equal.
  assert (HA : 0 < 2 ^ (- es)) by (apply Z.pow_pos_nonneg; lia).
  assert (HB : 0 < 2 ^ n) by (apply Z.pow_pos_nonneg; lia).
  assert (HK : 0 < 2 ^ (- E)) by (apply Z.pow_pos_nonneg; lia).
  assert (HBu : 2 ^ n ≤ 2 ^ 53) by (apply Z.pow_le_mono_r; lia).
  assert (HA17 : 17 ≤ 2 ^ (- es)) by nia.
  assert (HC : 0 < 2 ^ (- (es + E + n))) by (apply Z.pow_pos_nonneg; lia).
  assert (Epow : 2 ^ (- (es + E + n)) * 2 ^ n = 2 ^ (- es) * 2 ^ (- E)).
  { rewrite <- !Z.pow_add_r by lia. f_equal. lia. }
  assert (Hsmall : Z.pos p * δ * 2 ^ (- es) + qd * 2 ^ n < 2 ^ (- E) * 2 ^ (- es)).
  { assert (Z.pos p * δ * 2 ^ (- es) = δ * Z.pos ms) by (rewrite Hex; ring).
    assert (δ * Z.pos ms ≤ δ * 2 ^ 53) by (apply Z.mul_le_mono_nonneg_l; lia).
    assert (qd * 2 ^ n ≤ qd * 2 ^ 53) by (apply Z.mul_le_mono_nonneg_l; lia).
    assert (2 ^ (- E) * 17 ≤ 2 ^ (- E) * 2 ^ (- es))
      by (apply Z.mul_le_mono_nonneg_l; lia).
    lia. }
  apply (floor_core (Z.pos p) (Z.pos M) pn qd (2 ^ (- E)) (2 ^ (- es)) (2 ^ n)
           (2 ^ (- (es + E + n))) mr δ);
    [lia | lia | lia | exact HA | exact HB | exact HC | lia | exact Epow
    | exact EM | lia | exact Hsmall | rewrite <- Hex; exact Hmr].
Qed.

(** The offsets in hundredths of the size: [0.02], [0.04] and [0.20] are
    doubles just above 1/50, 1/25 and 1/5. *)
Lemma percent_2_exact s :
  0 < s < 2 ^ 48 → int_ (Zi s *' Fl f0_02) = Some (2 * s / 100).
Proof.
  intros [H0 H1]. destruct s as [|p|p]; try lia. rewrite f0_02_value.
  rewrite (int_times_const_floor p _ _ 1 50 6);
    [ | lia | split; vm_compute; congruence | lia | lia | lia | reflexivity | lia
      | vm_compute; reflexivity ].
  f_equal. replace (2 * Z.pos p) with (1 * Z.pos p * 2) by lia.
  change 100 with (50 * 2). rewrite Z.div_mul_cancel_r; lia.
Qed.

Lemma percent_4_exact s :
  0 < s < 2 ^ 48 → int_ (Zi s *' Fl f0_04) = Some (4 * s / 100).
Proof.
  intros [H0 H1]. destruct s as [|p|p]; try lia.
  change f0_04 with (S754_finite false 5764607523034235 (-57)).
  rewrite (int_times_const_floor p _ _ 1 25 3);
    [ | lia | split; vm_compute; congruence | lia | lia | lia | reflexivity | lia
      | vm_compute; reflexivity ].
  f_equal. replace (4 * Z.pos p) with (1 * Z.pos p * 4) by lia.
  change 100 with (25 * 4). rewrite Z.div_mul_cancel_r; lia.
Qed.

Lemma percent_20_exact s :
  0 < s < 2 ^ 48 → int_ (Zi s *' Fl f0_20) = Some (20 * s / 100).
Proof.
  intros [H0 H1]. destruct s as [|p|p]; try lia.
  change f0_20 with (S754_finite false 7205759403792794 (-55)).
  rewrite (int_times_const_floor p _ _ 1 5 2);
    [ | lia | split; vm_compute; congruence | lia | lia | lia | reflexivity | lia
      | vm_compute; reflexivity ].
  f_equal. replace (20 * Z.pos p) with (1 * Z.pos p * 20) by lia.
  change 100 with (5 * 20). rewrite Z.div_mul_cancel_r; lia.
Qed.

(** X10. At every canvas size [s] with [0 < s < 2^48], not only the
    configured ones, the binary64 computations of the shadow offset, the
    label and accent-bar margins, the accent-bar height and the two ends
    of the logo region give exactly the integer floors of 2%, 4% and 20%
    of the size, clamped. *)
Theorem proportional_offsets_exact s :
  0 < s < 2 ^ 48 →
  shadow_offset s = Some (Z.max 1 (2 * s / 100))
  ∧ label_margin s = Some (Z.max 0 (2 * s / 100))
  ∧ bar_margin s = Some (Z.max 0 (2 * s / 100))
  ∧ bar_height s = Some (Z.max 1 (4 * s / 100))
  ∧ (∀ pt fold,
        logo_area_top pt fold s = Some (pt + fold + Z.max 1 (4 * s / 100)))
  ∧ (∀ pb, logo_area_bottom pb s = Some (pb - Z.max 4 (20 * s / 100))).
Proof.
  intros Hs.
  unfold shadow_offset, label_margin, bar_margin, bar_height,
    logo_area_top, logo_area_bottom, max_.
  rewrite (percent_2_exact s Hs), (percent_4_exact s Hs), (percent_20_exact s Hs).
  repeat split.
Qed.

Lemma proportional_offsets_exact_witness :
  shadow_offset 1000 = Some (Z.max 1 (2 * 1000 / 100))
  ∧ label_margin 1000 = Some (Z.max 0 (2 * 1000 / 100))
  ∧ bar_margin 1000 = Some (Z.max 0 (2 * 1000 / 100))
  ∧ bar_height 1000 = Some (Z.max 1 (4 * 1000 / 100))
  ∧ (∀ pt fold,
        logo_area_top pt fold 1000 = Some (pt + fold + Z.max 1 (4 * 1000 / 100)))
  ∧ (∀ pb, logo_area_bottom pb 1000 = Some (pb - Z.max 4 (20 * 1000 / 100))).
Proof. apply (proportional_offsets_exact 1000). split; reflexivity. Defined.

(** ** What a renderer does to the image it is given *)

Section AppendOnly.
Context {font : Type}.
Variable truetype : string → Z → option font.
Variable load_default : font.
Variable textbbox : point → string → font → box.

Local Abbreviation frame := (render_frame truetype load_default textbbox).
Local Abbreviation label := (draw_extension_label truetype load_default textbbox).

Lemma extends_emit (draw : @image font) op : extends draw (emit draw op) [op].
Proof. by repeat split. Qed.

Lemma extends_refl (draw : @image font) : extends draw draw [].
Proof. repeat split. cbn. by rewrite app_nil_r. Qed.

Lemma extends_trans (a b c : @image font) l1 l2 :
  extends a b l1 → extends b c l2 → extends a c (l1 ++ l2).
Proof.
  intros (M1 & S1 & B1 & O1) (M2 & S2 & B2 & O2).
  repeat split; try congruence. rewrite O2, O1. by rewrite app_assoc.
Qed.

Local Ltac step :=
  match goal with
  | |- (?x ≫= _) = Some _ → _ =>
      destruct x as [?|] eqn:?; cbn [mbind option_bind]; [|discriminate]
  | |- (let '(_, _) := ?x in _) = Some _ → _ => destruct x as [? ?]
  end.

Lemma draw_document_page_extends (draw : @image font) s fr d geo :
  draw_document_page draw s fr = Some (d, geo) →
  ∃ new,
    extends draw d new
    ∧ map op_summary new
      = (if 32 <=? s then [("polygon"%string, Some shadow_color, None)] else [])
        ++ [ ("polygon"%string, Some (255, 255, 255), Some (200, 200, 200));
             ("polygon"%string, Some (230, 230, 235), Some (200, 200, 200)) ].
Proof.
  unfold draw_document_page. cbv zeta.
  destruct (page_geometry s fr) as [[[[[pl pt] pr] pb] fold]|];
    cbn [mbind option_bind]; [|discriminate].
  destruct (32 <=? s).
  - destruct (shadow_offset s) as [so|]; cbn [mbind option_bind]; [|discriminate].
    intros [= <- _]. eexists.
    split; [repeat split; cbn; by rewrite <- !app_assoc | reflexivity].
  - cbn [mbind option_bind]. intros [= <- _]. eexists.
    split; [repeat split; cbn; by rewrite <- !app_assoc | reflexivity].
Qed.

Lemma draw_accent_bar_extends (draw : @image font) pl pt fold s colors d :
  draw_accent_bar draw pl pt fold s colors = Some d →
  ∃ accent xy,
    colors !! "accent"%string = Some accent
    ∧ extends draw d [Rectangle xy (Some accent) None None].
Proof.
  unfold draw_accent_bar. repeat step. intros [= <-].
  do 2 eexists. split; [reflexivity|]. apply extends_emit.
Qed.

Lemma draw_app_logo_extends (draw : @image font) cx cy logo_size d :
  draw_app_logo draw cx cy logo_size = Some d →
  ∃ new, extends draw d new ∧ map op_summary new = logo_summary.
Proof.
  unfold draw_app_logo. cbv zeta. repeat step. intros [= <-].
  eexists. split; [repeat split; cbn; by rewrite <- !app_assoc | reflexivity].
Qed.

Lemma draw_extension_label_extends (draw : @image font) text pl pr pb s colors d :
  label draw text pl pr pb s colors = Some d →
  ∃ bg fg lbox xy fs,
    colors !! "label_bg"%string = Some bg
    ∧ colors !! "label_text"%string = Some fg
    ∧ extends draw d [ Rectangle lbox (Some bg) None None;
                       Text xy text fg (resolve_font truetype load_default fs) ].
Proof.
  unfold draw_extension_label. cbv zeta. repeat step. intros [= <-].
  do 5 eexists. split; [reflexivity|]. split; [reflexivity|].
  repeat split. cbn. by rewrite <- !app_assoc.
Qed.

(** X4. Each renderer only appends draw calls to the image it is given:
    on any input on which it returns, the mode, the size, the background
    and the calls made before are unchanged. The page renderer appends
    the page and the folded corner, after the shadow exactly when the
    size is at least 32; the accent renderer one rectangle filled with
    [colors["accent"]]; the logo renderer its six shapes in the fixed logo
    colors; the label renderer the bar filled with [colors["label_bg"]]
    and then the given text in [colors["label_text"]]. *)
Theorem renderers_only_append (draw d : @image font) :
  (∀ s fr geo,
      draw_document_page draw s fr = Some (d, geo) →
      ∃ new,
        extends draw d new
        ∧ map op_summary new
          = (if 32 <=? s then [("polygon"%string, Some shadow_color, None)] else [])
            ++ [ ("polygon"%string, Some (255, 255, 255), Some (200, 200, 200));
                 ("polygon"%string, Some (230, 230, 235), Some (200, 200, 200)) ])
  ∧ (∀ pl pt fold s colors,
        draw_accent_bar draw pl pt fold s colors = Some d →
        ∃ accent xy,
          colors !! "accent"%string = Some accent
          ∧ extends draw d [Rectangle xy (Some accent) None None])
  ∧ (∀ cx cy logo_size,
        draw_app_logo draw cx cy logo_size = Some d →
        ∃ new, extends draw d new ∧ map op_summary new = logo_summary)
  ∧ (∀ text pl pr pb s colors,
        label draw text pl pr pb s colors = Some d →
        ∃ bg fg lbox xy fs,
          colors !! "label_bg"%string = Some bg
          ∧ colors !! "label_text"%string = Some fg
          ∧ extends draw d [ Rectangle lbox (Some bg) None None;
                             Text xy text fg (resolve_font truetype load_default fs) ]).
Proof.
  split; [|split; [|split]].
  - intros s fr geo. apply draw_document_page_extends.
  - intros pl pt fold s colors. apply draw_accent_bar_extends.
  - intros cx cy ls. apply draw_app_logo_extends.
  - intros text pl pr pb s colors. apply draw_extension_label_extends.
Qed.

(** X11. The fidelity cutoff at every size from 16 pixels on, configured
    or not: a frame that renders is an RGBA image of that side with a
    transparent background; below 32 pixels its calls are the page body,
    the folded corner, the label bar and the text, 4 in all; from 32
    pixels on they are the shadow, the page body, the folded corner, the
    accent bar, the six shapes of the logo, the label bar and the text,
    12 in all. The bar is filled with [colors["label_bg"]], the text drawn
    in [colors["label_text"]], the accent bar filled with
    [colors["accent"]]. *)
Theorem frame_canvas_and_call_count ext colors size img :
  16 ≤ size →
  frame ext colors size = Some img →
  im_mode img = "RGBA"%string
  ∧ im_size img = (size, size)
  ∧ im_background img = (0, 0, 0, 0)
  ∧ length (im_ops img) = (if 32 <=? size then 12%nat else 4%nat)
  ∧ ∃ accent bg fg,
      colors !! "label_bg"%string = Some bg
      ∧ colors !! "label_text"%string = Some fg
      ∧ (32 ≤ size → colors !! "accent"%string = Some accent)
      ∧ map op_summary (im_ops img)
        = prefix_summary accent size
          ++ [ ("rectangle"%string, Some bg, None);
               ("text"%string, Some fg, None) ].
Proof.
  intros _. unfold render_frame. cbv zeta.
  destruct (draw_document_page _ _ _) as [[d1 [[[[pl pt] pr] pb] fold]]|] eqn:E1;
    cbn [mbind option_bind]; [|discriminate].
  destruct (draw_document_page_extends _ _ _ _ _ E1) as (n1 & X1 & S1).
  unfold prefix_summary.
  destruct (32 <=? size) eqn:Hcut.
  - destruct (draw_accent_bar _ _ _ _ _ _) as [d2|] eqn:E2;
      cbn [mbind option_bind]; [|discriminate].
    destruct (draw_accent_bar_extends _ _ _ _ _ _ _ E2) as (ac & axy & Hac & X2).
    destruct (logo_placement _ _ _ _ _ _) as [[[cx cy] ls]|];
      cbn [mbind option_bind]; [|discriminate].
    destruct (draw_app_logo _ _ _ _) as [d3|] eqn:E3;
      cbn [mbind option_bind]; [|discriminate].
    destruct (draw_app_logo_extends _ _ _ _ _ E3) as (n3 & X3 & S3).
    intros E4.
    destruct (draw_extension_label_extends _ _ _ _ _ _ _ _ E4)
      as (bg & fg & lbox & xy & fs & Hbg & Hfg & X4).
    pose proof (extends_trans _ _ _ _ _ (extends_trans _ _ _ _ _
                  (extends_trans _ _ _ _ _ X1 X2) X3) X4) as (HM & HS & HB & HO).
    cbn [im_mode im_size im_background im_ops Image_new app] in HM, HS, HB, HO.
    repeat (split; [assumption|]). split.
    + rewrite HO, !length_app, <- (length_map op_summary n1),
        <- (length_map op_summary n3), S1, S3. reflexivity.
    + exists ac, bg, fg. repeat (split; [assumption|]). split; [done|].
      rewrite HO, !map_app, S1, S3. reflexivity.
  - cbn [mbind option_bind].
    destruct (logo_placement _ _ _ _ _ _) as [[[cx cy] ls]|];
      cbn [mbind option_bind]; [|discriminate].
    intros E4.
    destruct (draw_extension_label_extends _ _ _ _ _ _ _ _ E4)
      as (bg & fg & lbox & xy & fs & Hbg & Hfg & X4).
    pose proof (extends_trans _ _ _ _ _ X1 X4) as (HM & HS & HB & HO).
    cbn [im_mode im_size im_background im_ops Image_new app] in HM, HS, HB, HO.
    repeat (split; [assumption|]). split.
    + rewrite HO, !length_app, <- (length_map op_summary n1), S1. reflexivity.
    + exists bg, bg, fg. repeat (split; [assumption|]). split.
      * apply Z.leb_gt in Hcut. lia.
      * rewrite HO, !map_app, S1. reflexivity.
Qed.

End AppendOnly.

Lemma renderers_only_append_witness :
  (∃ d geo new,
      draw_document_page
        (Image_new (font := NoFonts.font) "RGBA" (64, 64) (0, 0, 0, 0))
        64 (PFloat f0_22) = Some (d, geo)
      ∧ extends (Image_new "RGBA" (64, 64) (0, 0, 0, 0)) d new
      ∧ length new = 3%nat)
  ∧ (∃ d bg fg lbox xy fs,
        draw_extension_label NoFonts.truetype NoFonts.load_default NoFonts.textbbox
          (Image_new "RGBA" (16, 16) (0, 0, 0, 0)) "DXF" 1 14 14 16 dxf_colors
        = Some d
        ∧ extends (Image_new "RGBA" (16, 16) (0, 0, 0, 0)) d
            [ Rectangle lbox (Some bg) None None;
              Text xy "DXF" fg
                (resolve_font NoFonts.truetype NoFonts.load_default fs) ]).
Proof.
  split.
  - destruct (draw_document_page
                (Image_new (font := NoFonts.font) "RGBA" (64, 64) (0, 0, 0, 0))
                64 (PFloat f0_22)) as [[d geo]|] eqn:E;
      [|vm_compute in E; discriminate].
    destruct (proj1 (renderers_only_append
                       NoFonts.truetype NoFonts.load_default NoFonts.textbbox
                       (Image_new "RGBA" (64, 64) (0, 0, 0, 0)) d)
                64 (PFloat f0_22) geo E) as (new & Hext & Hsum).
    exists d, geo, new. split; [reflexivity|]. split; [exact Hext|].
    by rewrite <- (length_map op_summary), Hsum.
  - destruct (draw_extension_label
                NoFonts.truetype NoFonts.load_default NoFonts.textbbox
                (Image_new "RGBA" (16, 16) (0, 0, 0, 0)) "DXF" 1 14 14 16 dxf_colors)
      as [d|] eqn:E; [|vm_compute in E; discriminate].
    destruct (proj2 (proj2 (proj2 (renderers_only_append
                       NoFonts.truetype NoFonts.load_default NoFonts.textbbox
                       (Image_new "RGBA" (16, 16) (0, 0, 0, 0)) d)))
                "DXF"%string 1 14 14 16 dxf_colors E)
      as (bg & fg & lbox & xy & fs & _ & _ & Hext).
    exists d, bg, fg, lbox, xy, fs. split; [reflexivity|]. exact Hext.
Defined.

Lemma frame_canvas_and_call_count_witness :
  ∃ img,
    render_frame NoFonts.truetype NoFonts.load_default NoFonts.textbbox
      "o2d" o2d_colors 20 = Some img
    ∧ im_mode img = "RGBA"%string
    ∧ im_size img = (20, 20)
    ∧ im_background img = (0, 0, 0, 0)
    ∧ length (im_ops img) = 4%nat
    ∧ ∃ accent bg fg,
        o2d_colors !! "label_bg"%string = Some bg
        ∧ o2d_colors !! "label_text"%string = Some fg
        ∧ (32 ≤ 20 → o2d_colors !! "accent"%string = Some accent)
        ∧ map op_summary (im_ops img)
          = prefix_summary accent 20
            ++ [ ("rectangle"%string, Some bg, None);
                 ("text"%string, Some fg, None) ].
Proof.
  destruct (render_frame NoFonts.truetype NoFonts.load_default NoFonts.textbbox
              "o2d" o2d_colors 20) as [img|] eqn:E;
    [|vm_compute in E; discriminate].
  exists img. split; [reflexivity|].
  refine (frame_canvas_and_call_count
            NoFonts.truetype NoFonts.load_default NoFonts.textbbox
            "o2d" o2d_colors 20 img _ E).
  lia.
Defined.

(** ** The page on the canvas *)

Section PageOnCanvas.
Context {font : Type}.

(** X5. At every canvas size [s] with [16 ≤ s < 2^48] and the default
    fold ratio, the Shape Renderer returns, and every vertex it draws
    (shadow, page body, folded corner) is a pixel of the canvas: integer
    coordinates within [0 .. s-1]. The cut corner stays on the page:
    [page_left ≤ page_right - fold] and [page_top + fold ≤ page_bottom]. *)
Theorem page_drawn_inside_canvas (draw : @image font) s :
  16 ≤ s < 2 ^ 48 →
  ∃ d pl pt pr pb fold new,
    draw_document_page draw s (PFloat f0_22) = Some (d, (pl, pt, pr, pb, fold))
    ∧ extends draw d new
    ∧ Forall (λ op, Forall (pixel_of s) (op_points op)) new
    ∧ pl ≤ pr - fold ∧ pt + fold ≤ pb.
Proof.
  intros Hs.
  assert (Hs' : 0 < s < 2 ^ 48) by lia.
  unfold draw_document_page, page_geometry. cbv zeta.
  rewrite (page_margin_exact s Hs'), (page_fold_exact s Hs').
  cbn [mbind option_bind].
  set (m := Z.max 1 (8 * s / 100)).
  set (f := Z.max 2 (22 * s / 100)).
  assert (Hm : 1 ≤ m ∧ 100 * m ≤ Z.max 100 (8 * s)) by (subst m; Z.div_mod_to_equations; lia).
  assert (Hf : 2 ≤ f ∧ 100 * f ≤ Z.max 200 (22 * s))
    by (subst f; Z.div_mod_to_equations; lia).
  destruct (Z.leb_spec 32 s) as [Hbig|Hsmall].
  - unfold shadow_offset, max_. rewrite (percent_2_exact s Hs').
    cbn [fmap option_fmap option_map mbind option_bind].
    set (so := Z.max 1 (2 * s / 100)).
    assert (Hso : 1 ≤ so ∧ so ≤ m) by (subst so m; Z.div_mod_to_equations; lia).
    do 7 eexists. split; [reflexivity|].
    split; [repeat split; cbn; by rewrite <- !app_assoc|].
    split; [|lia].
    repeat (apply List.Forall_cons; [cbn [op_points ipt]|]);
      try apply List.Forall_nil;
      repeat (apply List.Forall_cons; [|]); try apply List.Forall_nil;
      (eexists _, _; split; [reflexivity|lia]).
  - do 7 eexists. split; [reflexivity|].
    split; [repeat split; cbn; by rewrite <- !app_assoc|].
    split; [|lia].
    repeat (apply List.Forall_cons; [cbn [op_points ipt]|]);
      try apply List.Forall_nil;
      repeat (apply List.Forall_cons; [|]); try apply List.Forall_nil;
      (eexists _, _; split; [reflexivity|lia]).
Qed.

End PageOnCanvas.

Lemma page_drawn_inside_canvas_witness :
  ∃ d pl pt pr pb fold new,
    draw_document_page (Image_new (font := NoFonts.font) "RGBA" (100, 100) (0, 0, 0, 0))
      100 (PFloat f0_22) = Some (d, (pl, pt, pr, pb, fold))
    ∧ extends (Image_new "RGBA" (100, 100) (0, 0, 0, 0)) d new
    ∧ Forall (λ op, Forall (pixel_of 100) (op_points op)) new
    ∧ pl ≤ pr - fold ∧ pt + fold ≤ pb.
Proof. apply (page_drawn_inside_canvas _ 100). split; [lia|reflexivity]. Defined.

(** ** The keys of a color scheme *)

Section SchemeKeys.
Context {font : Type}.
Variable truetype : string → Z → option font.
Variable load_default : font.
Variable textbbox : point → string → font → box.

Local Abbreviation frame := (render_frame truetype load_default textbbox).
Local Abbreviation label := (draw_extension_label truetype load_default textbbox).
Local Abbreviation icon := (generate_icon truetype load_default textbbox).

Lemma label_needs_its_keys (draw : @image font) text pl pr pb size
    (colors : gmap string color) :
  colors !! "label_bg"%string = None ∨ colors !! "label_text"%string = None →
  label draw text pl pr pb size colors = None.
Proof.
  intros Hmiss. destruct (label draw text pl pr pb size colors) as [d|] eqn:E;
    [|reflexivity].
  destruct (draw_extension_label_extends _ _ _ _ _ _ _ _ _ _ _ E)
    as (bg & fg & _ & _ & _ & Hbg & Hfg & _).
  destruct Hmiss; congruence.
Qed.

Lemma icon_needs_every_frame ext colors size :
  size ∈ ICO_SIZES → frame ext colors size = None → icon ext colors = None.
Proof.
  intros Hin Hnone. unfold generate_icon.
  destruct (mapM (frame ext colors) ICO_SIZES) as [images|] eqn:E;
    [|reflexivity].
  apply mapM_Some_1 in E.
  apply list_elem_of_lookup in Hin as [i Hi].
  destruct (Forall2_lookup_l _ _ _ _ _ E Hi) as (img & _ & Himg). congruence.
Qed.

(** X1. A color scheme without ["label_bg"] or without ["label_text"]
    makes every frame raise, whatever the extension and the size, and so
    the whole icon: nothing is handed to the container writer. *)
Theorem label_keys_are_required ext (colors : gmap string color) :
  colors !! "label_bg"%string = None ∨ colors !! "label_text"%string = None →
  (∀ size, frame ext colors size = None) ∧ icon ext colors = None.
Proof.
  intros Hmiss.
  assert (Hframe : ∀ size, frame ext colors size = None).
  { intros size. rewrite render_frame_split.
    destruct (frame_prefix colors size) as [[d [[pl pr] pb]]|];
      cbn [mbind option_bind]; [|reflexivity].
    by apply label_needs_its_keys. }
  split; [exact Hframe|].
  apply (icon_needs_every_frame ext colors 16); [|apply Hframe].
  unfold ICO_SIZES. repeat constructor.
Qed.

(** X2. The key ["accent"] is read only from 32 pixels on: without it,
    a frame below 32 pixels is the frame any accent would give, a frame
    of 32 pixels or more raises, and so does the icon, the size list
    holding such sizes. *)
Theorem accent_key_is_read_from_32 ext (colors : gmap string color) :
  colors !! "accent"%string = None →
  (∀ size c, size < 32 →
      frame ext colors size = frame ext (<["accent"%string := c]> colors) size)
  ∧ (∀ size, 32 ≤ size → frame ext colors size = None)
  ∧ icon ext colors = None.
Proof.
  intros Hmiss.
  assert (Hbig : ∀ size, 32 ≤ size → frame ext colors size = None).
  { intros size Hsize. unfold render_frame. cbv zeta.
    destruct (draw_document_page _ _ _) as [[d1 [[[[pl pt] pr] pb] fold]]|];
      cbn [mbind option_bind]; [|reflexivity].
    destruct (Z.leb_spec 32 size); [|lia].
    destruct (draw_accent_bar d1 pl pt fold size colors) as [d2|] eqn:E;
      [|reflexivity].
    destruct (draw_accent_bar_extends _ _ _ _ _ _ _ E) as (ac & _ & Hac & _).
    congruence. }
  split; [|split; [exact Hbig|]].
  - intros size c Hsize. unfold render_frame. cbv zeta.
    destruct (draw_document_page _ _ _) as [[d1 [[[[pl pt] pr] pb] fold]]|];
      cbn [mbind option_bind]; [|reflexivity].
    destruct (Z.leb_spec 32 size); [lia|]. cbn [mbind option_bind].
    destruct (logo_placement _ _ _ _ _ _) as [[[cx cy] ls]|];
      cbn [mbind option_bind]; [|reflexivity].
    apply draw_extension_label_colors; symmetry; by apply lookup_insert_ne.
  - apply (icon_needs_every_frame ext colors 32); [|by apply Hbig].
    unfold ICO_SIZES. repeat constructor.
Qed.

(** X3. With a well-behaved text measurement, any extension string and
    any color scheme holding the keys ["accent"], ["label_bg"] and
    ["label_text"] give an icon: a save call in format ICO, named
    [<ext>-document.ico], with the 256-pixel frame as base and the frames
    of 64, 48, 32 and 16 pixels appended in that order, each a square
    RGBA image. *)
Theorem any_scheme_with_three_keys_gives_an_icon ext (colors : gmap string color) :
  (∀ xy t f, sane_box (textbbox xy t f)) →
  is_Some (colors !! "accent"%string) →
  is_Some (colors !! "label_bg"%string) →
  is_Some (colors !! "label_text"%string) →
  ∃ out,
    icon ext colors = Some out
    ∧ sv_name out = (ext ++ "-document.ico")%string
    ∧ sv_format out = "ICO"%string
    ∧ im_size (sv_base out) = (256, 256)
    ∧ map im_size (sv_append_images out) = [(64, 64); (48, 48); (32, 32); (16, 16)]
    ∧ Forall (λ im, im_mode im = "RGBA"%string) (sv_frames out).
Proof.
  intros Hsane [accent Hacc] [bg Hbg] [fg Hfg].
  destruct (icon_shape truetype load_default textbbox Hsane ext colors accent bg fg
              Hacc Hbg Hfg) as (a & b & c & d & e & E).
  eexists. split; [exact E|]. repeat split.
  repeat constructor.
Qed.

End SchemeKeys.

Lemma label_keys_are_required_witness :
  (∀ size,
      render_frame NoFonts.truetype NoFonts.load_default NoFonts.textbbox "o2d"
        (delete "label_bg"%string o2d_colors) size = None)
  ∧ generate_icon NoFonts.truetype NoFonts.load_default NoFonts.textbbox "o2d"
      (delete "label_bg"%string o2d_colors) = None.
Proof.
  apply (label_keys_are_required NoFonts.truetype NoFonts.load_default NoFonts.textbbox).
  left. vm_compute. reflexivity.
Defined.

Lemma accent_key_is_read_from_32_witness :
  render_frame NoFonts.truetype NoFonts.load_default NoFonts.textbbox "o2d"
    (delete "accent"%string o2d_colors) 16
  = render_frame NoFonts.truetype NoFonts.load_default NoFonts.textbbox "o2d"
      (<["accent"%string := (0, 0, 0)]> (delete "accent"%string o2d_colors)) 16
  ∧ render_frame NoFonts.truetype NoFonts.load_default NoFonts.textbbox "o2d"
      (delete "accent"%string o2d_colors) 32 = None.
Proof.
  destruct (accent_key_is_read_from_32
              NoFonts.truetype NoFonts.load_default NoFonts.textbbox "o2d"
              (delete "accent"%string o2d_colors)) as (Hsmall & Hbig & _).
  - vm_compute. reflexivity.
  - split; [apply Hsmall; lia | apply Hbig; lia].
Defined.

Lemma any_scheme_with_three_keys_gives_an_icon_witness :
  ∃ out,
    generate_icon NoFonts.truetype NoFonts.load_default NoFonts.textbbox "svg"
      (delete "accent_dark"%string dxf_colors) = Some out
    ∧ sv_name out = "svg-document.ico"%string
    ∧ sv_format out = "ICO"%string
    ∧ im_size (sv_base out) = (256, 256)
    ∧ map im_size (sv_append_images out) = [(64, 64); (48, 48); (32, 32); (16, 16)]
    ∧ Forall (λ im, im_mode im = "RGBA"%string) (sv_frames out).
Proof.
  apply (any_scheme_with_three_keys_gives_an_icon
           NoFonts.truetype NoFonts.load_default NoFonts.textbbox "svg").
  - intros xy t f. vm_compute. repeat split.
  - vm_compute. eauto.
  - vm_compute. eauto.
  - vm_compute. eauto.
Defined.

(** ** The order of the frames *)

Section FrameOrder.
Context {font : Type}.

Local Abbreviation side := (frame_side (font := font)).
Local Abbreviation larger_first := (λ a b : @image font, side b ≤ side a).

Lemma insert_desc_perm (im : @image font) l : insert_desc im l ≡ₚ im :: l.
Proof.
  induction l as [|y l IH]; cbn [insert_desc]; [reflexivity|].
  destruct (_ <? _); [|reflexivity].
  rewrite IH. apply Permutation_swap.
Qed.

Lemma insert_desc_sorted (im : @image font) l :
  StronglySorted larger_first l → StronglySorted larger_first (insert_desc im l).
Proof.
  induction l as [|y l IH]; intros Hs; cbn [insert_desc].
  - repeat constructor.
  - apply StronglySorted_inv in Hs as [Hl Hy].
    destruct (Z.ltb_spec (im_size im).1 (im_size y).1) as [Hlt|Hge].
    + constructor; [by apply IH|].
      rewrite insert_desc_perm. constructor; [unfold frame_side; lia|exact Hy].
    + constructor; [by constructor|].
      constructor; [unfold frame_side; lia|].
      eapply Forall_impl; [exact Hy|]. cbn. unfold frame_side. intros z Hz. lia.
Qed.

Lemma insert_desc_stable (im : @image font) l k :
  filter (λ x, side x = k) (insert_desc im l) = filter (λ x, side x = k) (im :: l).
Proof.
  induction l as [|y l IH]; cbn [insert_desc]; [reflexivity|].
  destruct (Z.ltb_spec (im_size im).1 (im_size y).1) as [Hlt|Hge]; [|reflexivity].
  rewrite (filter_cons _ y), IH, !filter_cons.
  unfold frame_side.
  destruct (decide ((im_size y).1 = k)), (decide ((im_size im).1 = k));
    try reflexivity; lia.
Qed.

(** X6. The sort before the save call, on any list of images: its
    result is a rearrangement of the list, sides never increasing from
    one frame to the next, and images of equal side keep the order they
    were rendered in. *)
Theorem sorted_desc_is_a_stable_descending_sort (images : list (@image font)) :
  sorted_desc images ≡ₚ images
  ∧ StronglySorted larger_first (sorted_desc images)
  ∧ ∀ k, filter (λ x, side x = k) (sorted_desc images)
         = filter (λ x, side x = k) images.
Proof.
  unfold sorted_desc.
  induction images as [|im l (IHp & IHs & IHk)]; cbn [foldr].
  - split; [constructor|]. split; [constructor|reflexivity].
  - split; [by rewrite insert_desc_perm, IHp|].
    split; [by apply insert_desc_sorted|].
    intros k. by rewrite insert_desc_stable, !filter_cons, IHk.
Qed.

End FrameOrder.

(** ** The names of the files *)

Lemma string_length_app (a b : string) :
  String.length (a ++ b) = (String.length a + String.length b)%nat.
Proof.
  induction a as [|c a IH]; [reflexivity|].
  change (S (String.length (a ++ b)) = S (String.length a + String.length b)).
  by rewrite IH.
Qed.

Lemma string_app_inv_tail (a b t : string) : (a ++ t = b ++ t)%string → a = b.
Proof.
  revert b. induction a as [|c a IH]; intros [|c' b] H.
  - reflexivity.
  - apply (f_equal String.length) in H.
    change (String.length t = S (String.length (b ++ t))) in H.
    rewrite string_length_app in H. lia.
  - apply (f_equal String.length) in H.
    change (S (String.length (a ++ t)) = String.length t) in H.
    rewrite string_length_app in H. lia.
  - change (String c (a ++ t) = String c' (b ++ t)) in H.
    injection H as -> H. f_equal. by apply IH.
Qed.

Section FileNames.
Context {font : Type}.
Variable truetype : string → Z → option font.
Variable load_default : font.
Variable textbbox : point → string → font → box.

Local Abbreviation icon := (generate_icon truetype load_default textbbox).

(** X9. Whenever it returns, [generate_icon] passes the writer the file
    name [<ext>-document.ico] and the format ICO, and two different
    extension strings never give the same file name string. *)
Theorem icon_names_are_distinct ext1 ext2 colors1 colors2 out1 out2 :
  generate_icon truetype load_default textbbox ext1 colors1 = Some out1 →
  generate_icon truetype load_default textbbox ext2 colors2 = Some out2 →
  sv_name out1 = (ext1 ++ "-document.ico")%string
  ∧ sv_format out1 = "ICO"%string
  ∧ (ext1 ≠ ext2 → sv_name out1 ≠ sv_name out2).
Proof.
  assert (Hname : ∀ ext colors out,
             icon ext colors = Some out →
             sv_name out = (ext ++ "-document.ico")%string
             ∧ sv_format out = "ICO"%string).
  { intros ext colors out. unfold generate_icon.
    destruct (mapM _ _) as [images|]; cbn [mbind option_bind]; [|discriminate].
    destruct (sorted_desc images); [discriminate|]. intros [= <-]. by split. }
  intros E1 E2.
  destruct (Hname _ _ _ E1) as [N1 F1], (Hname _ _ _ E2) as [N2 _].
  split; [exact N1|]. split; [exact F1|].
  intros Hne Heq. rewrite N1, N2 in Heq.
  apply string_app_inv_tail in Heq. exact (Hne Heq).
Qed.

End FileNames.

Lemma icon_names_are_distinct_witness :
  ∃ out1 out2,
    generate_icon NoFonts.truetype NoFonts.load_default NoFonts.textbbox
      "o2d" o2d_colors = Some out1
    ∧ generate_icon NoFonts.truetype NoFonts.load_default NoFonts.textbbox
        "dxf" dxf_colors = Some out2
    ∧ sv_name out1 ≠ sv_name out2.
Proof.
  destruct (generate_icon NoFonts.truetype NoFonts.load_default NoFonts.textbbox
              "o2d" o2d_colors) as [out1|] eqn:E1;
    [|vm_compute in E1; discriminate].
  destruct (generate_icon NoFonts.truetype NoFonts.load_default NoFonts.textbbox
              "dxf" dxf_colors) as [out2|] eqn:E2;
    [|vm_compute in E2; discriminate].
  exists out1, out2. split; [reflexivity|]. split; [reflexivity|].
  apply (icon_names_are_distinct _ _ _ "o2d" "dxf" _ _ out1 out2 E1 E2).
  discriminate.
Defined.

(** ** Where the shapes of a frame lie *)

Section ShapesOnFrame.
Context {font : Type}.
Variable truetype : string → Z → option font.
Variable load_default : font.
Variable textbbox : point → string → font → box.
Hypothesis textbbox_sane : ∀ xy t f, sane_box (textbbox xy t f).

Local Abbreviation frame := (render_frame truetype load_default textbbox).
Local Abbreviation chosen_font := (resolve_font truetype load_default).

(** A frame of a configured size: the calls before the label, which
    depend on the scheme by its accent only, then the label bar and the
    text. *)
Lemma frame_decomposition ext colors accent bg fg size :
  colors !! "accent"%string = Some accent →
  colors !! "label_bg"%string = Some bg →
  colors !! "label_text"%string = Some fg →
  size ∈ ICO_SIZES →
  ∃ d pl pr pb lh lm fs xy,
    frame_prefix ({[ "accent"%string := accent ]} : gmap string color) size
    = Some (d, (pl, pr, pb))
    ∧ label_height size = Some lh
    ∧ label_margin size = Some lm
    ∧ frame ext colors size
      = Some (emit (emit d (Rectangle (PInt (pl + lm), PInt (pb - lh),
                                       PInt (pr - lm), PInt (pb - lm))
                                      (Some bg) None None))
                   (Text xy (label_text_for ext size) fg (chosen_font fs))).
Proof.
  intros Hacc Hbg Hfg Hin.
  assert (Hsingle : colors !! "accent"%string
                    = ({[ "accent"%string := accent ]} : gmap string color)
                        !! "accent"%string).
  { rewrite Hacc. symmetry. apply lookup_singleton_eq. }
  unfold ICO_SIZES in Hin.
  repeat (apply elem_of_cons in Hin as [->|Hin]); [..|by apply elem_of_nil in Hin].
  all: rewrite render_frame_split;
    rewrite (frame_prefix_colors _ _ _ Hsingle);
    destruct (frame_prefix _ _) as [[d [[pl pr] pb]]|] eqn:Hp;
    [|vm_compute in Hp; discriminate];
    cbn [mbind option_bind];
    pose proof Hp as Hp'; vm_compute in Hp'; injection Hp' as _ Hpl Hpr Hpb;
    subst pl pr pb;
    match goal with
    | |- context [draw_extension_label _ _ _ ?d ?t ?pl ?pr ?pb ?s ?c] =>
        edestruct (draw_extension_label_shape truetype load_default textbbox
                     d t pl pr pb s c) as [xy Hxy]
    end;
    [ exact textbbox_sane | vm_compute; reflexivity | vm_compute; reflexivity
    | vm_compute; reflexivity | exact Hbg | exact Hfg
    | reflexivity | reflexivity | reflexivity | ];
    do 8 eexists; split; [reflexivity|];
    split; [vm_compute; reflexivity|]; split; [vm_compute; reflexivity|];
    exact Hxy.
Qed.

(** Take a frame of the goal apart, with its numbers computed. *)
Local Ltac at_size Hdec :=
  lazymatch goal with
  | |- context [render_frame _ _ _ _ _ ?s] =>
      let Hs := fresh in
      assert (Hs : s ∈ ICO_SIZES) by (unfold ICO_SIZES; repeat constructor);
      destruct (Hdec s Hs)
        as (d & pl & pr & pb & lh & lm & fs & xy & Hp & Hlh & Hlm & E);
      clear Hs;
      vm_compute in Hp; injection Hp as Hd Hpl Hpr Hpb;
      vm_compute in Hlh; injection Hlh as Hlh;
      vm_compute in Hlm; injection Hlm as Hlm;
      subst d pl pr pb lh lm
  end.

(** X8. On every frame of a configured size, for any extension and any
    scheme holding the three keys, each box handed to [rectangle],
    [rounded_rectangle] or [ellipse] is ordered: its left is not right of
    its right, its top not below its bottom. *)
Theorem every_box_is_ordered ext colors :
  is_Some (colors !! "accent"%string) →
  is_Some (colors !! "label_bg"%string) →
  is_Some (colors !! "label_text"%string) →
  Forall (λ size,
    ∃ img, frame ext colors size = Some img
           ∧ forallb op_box_ordered (im_ops img) = true) ICO_SIZES.
Proof.
  intros [accent Hacc] [bg Hbg] [fg Hfg].
  pose proof (λ s, frame_decomposition ext colors accent bg fg s Hacc Hbg Hfg)
    as Hdec.
  unfold ICO_SIZES at 1.
  repeat (constructor; [ at_size Hdec;
                         eexists; split; [exact E|]; vm_compute; reflexivity |]).
  constructor.
Qed.

(** X7. On every frame of 32 pixels or more of the size list, the calls
    5 to 10 are the logo; its backdrop lies on the page, below the line
    of the folded corner and above the label bar, and the square, the
    circle, the line and the two dots lie within the backdrop. *)
Theorem logo_clear_of_corner_and_label ext colors :
  is_Some (colors !! "accent"%string) →
  is_Some (colors !! "label_bg"%string) →
  is_Some (colors !! "label_text"%string) →
  Forall (λ size,
    ∃ img pl pt pr pb fold lh backdrop radius,
      frame ext colors size = Some img
      ∧ page_geometry size (PFloat f0_22) = Some (pl, pt, pr, pb, fold)
      ∧ label_height size = Some lh
      ∧ map op_summary (take 6 (drop 4 (im_ops img))) = logo_summary
      ∧ im_ops img !! 4%nat = Some (RoundedRectangle backdrop radius LOGO_BG)
      ∧ @op_inside font (PInt pl, PInt (pt + fold), PInt pr, PInt (pb - lh))
          (RoundedRectangle backdrop radius LOGO_BG) = true
      ∧ forallb (op_inside backdrop) (take 5 (drop 5 (im_ops img))) = true)
    [32; 48; 64; 256].
Proof.
  intros [accent Hacc] [bg Hbg] [fg Hfg].
  pose proof (λ s, frame_decomposition ext colors accent bg fg s Hacc Hbg Hfg)
    as Hdec.
  repeat (constructor;
    [ at_size Hdec;
      eexists _, _, _, _, _, _, _, _, _;
      split; [exact E|];
      split; [vm_compute; reflexivity|];
      split; [vm_compute; reflexivity|];
      split; [vm_compute; reflexivity|];
      split; [reflexivity|];
      split; vm_compute; reflexivity |]).
  constructor.
Qed.

End ShapesOnFrame.

Lemma every_box_is_ordered_witness :
  Forall (λ size,
    ∃ img,
      render_frame NoFonts.truetype NoFonts.load_default NoFonts.textbbox
        "dxf" dxf_colors size = Some img
      ∧ forallb op_box_ordered (im_ops img) = true) ICO_SIZES.
Proof.
  apply (every_box_is_ordered
           NoFonts.truetype NoFonts.load_default NoFonts.textbbox).
  - intros xy t f. vm_compute. repeat split.
  - vm_compute. eauto.
  - vm_compute. eauto.
  - vm_compute. eauto.
Defined.

Lemma logo_clear_of_corner_and_label_witness :
  Forall (λ size,
    ∃ img pl pt pr pb fold lh backdrop radius,
      render_frame NoFonts.truetype NoFonts.load_default NoFonts.textbbox
        "o2d" o2d_colors size = Some img
      ∧ page_geometry size (PFloat f0_22) = Some (pl, pt, pr, pb, fold)
      ∧ label_height size = Some lh
      ∧ map op_summary (take 6 (drop 4 (im_ops img))) = logo_summary
      ∧ im_ops img !! 4%nat = Some (RoundedRectangle backdrop radius LOGO_BG)
      ∧ @op_inside NoFonts.font
          (PInt pl, PInt (pt + fold), PInt pr, PInt (pb - lh))
          (RoundedRectangle backdrop radius LOGO_BG) = true
      ∧ forallb (op_inside backdrop) (take 5 (drop 5 (im_ops img))) = true)
    [32; 48; 64; 256].
Proof.
  apply (logo_clear_of_corner_and_label
           NoFonts.truetype NoFonts.load_default NoFonts.textbbox).
  - intros xy t f. vm_compute. repeat split.
  - vm_compute. eauto.
  - vm_compute. eauto.
  - vm_compute. eauto.
Defined.
